(** * go-libp2p: the WebTransport listener and the AutoNAT v2 client

  A shallow embedding of [p2p/transport/webtransport/listener.go] and of the
  AutoNAT v2 client that the same source file carries ([package autonatv2]),
  with the properties of both that the specification states.

  Conventions of the embedding.
  - Go's [int] is taken to be 64 bits wide.  Unsigned wire fields
    ([uint32], [uint64]) are values of [N]; signed values are values of [Z].
  - A Go interface value that may be [nil] is an [option].
  - The collaborators the code calls through interfaces (connection gater,
    resource manager, HTTP/3 server, Noise, the streams) are records of
    functions and scripted outcomes: one record describes how the
    collaborators answer during one run of the modelled function.
  - The calls the code makes on its collaborators are recorded, in program
    order, as a list of events.  Logging calls are not recorded. *)

From Stdlib.Strings Require Import Byte.
From stdpp Require Import base gmap list strings.

Open Scope Z_scope.

(** ** Go runtime: errors, results, buffered channels *)

Module Go.

(** [error] values.  [errors_New] is [errors.New]; [fmt_Errorf] keeps the
    format string and the operands instead of the formatted text, so that the
    operand of a [%w] verb stays available to [Unwrap]. *)
Inductive error : Type :=
| errors_New (text : string)
| fmt_Errorf (format : string) (operands : list operand)
with operand : Type :=
| verb_w (e : error)      (* operand of %w *)
| verb_d (n : Z)          (* operand of %d *)
| verb_s (s : string)     (* operand of %s *)
| verb_T (ty : string).   (* operand of %T: the name of a dynamic type *)

(** The error a [%w] verb wraps, as [fmt.Errorf] exposes it to [errors.Unwrap]. *)
Fixpoint first_wrapped (ops : list operand) : option error :=
  match ops with
  | [] => None
  | verb_w e :: _ => Some e
  | _ :: rest => first_wrapped rest
  end.

Definition Unwrap (e : error) : option error :=
  match e with
  | errors_New _ => None
  | fmt_Errorf _ ops => first_wrapped ops
  end.

(** [errors.Is]: the target is the error itself or is reached by unwrapping. *)
Inductive errors_Is : error -> error -> Prop :=
| Is_here e : errors_Is e e
| Is_below e inner target :
    Unwrap e = Some inner -> errors_Is inner target -> errors_Is e target.

(** The result of a fallible call, [(v, err)] with exactly one of them set. *)
Inductive result (A : Type) : Type :=
| Ok (v : A)
| Err (e : error).
Arguments Ok {A} v.
Arguments Err {A} e.

(** A buffered channel: [make(chan A, cap)] and its pending elements,
    oldest first. *)
Record chan (A : Type) : Type := mkChan { cap : nat; buf : list A }.
Arguments mkChan {A} cap buf.
Arguments cap {A} c.
Arguments buf {A} c.

Definition make {A : Type} (n : nat) : chan A := mkChan n [].

(** [select { case ch <- v: ...; default: ... }]: the send proceeds when the
    buffer has room; otherwise the [default] branch runs ([None]). *)
Definition try_send {A : Type} (ch : chan A) (v : A) : option (chan A) :=
  if (length (buf ch) <? cap ch)%nat
  then Some (mkChan (cap ch) (buf ch ++ [v]))
  else None.

(** A receive can proceed when the buffer is not empty; it takes the oldest
    element. *)
Definition try_recv {A : Type} (ch : chan A) : option (A * chan A) :=
  match buf ch with
  | [] => None
  | v :: rest => Some (v, mkChan (cap ch) rest)
  end.

End Go.

Import Go.

(** ** Multiaddresses ([github.com/multiformats/go-multiaddr])

  Only what the two packages use: an address is a sequence of components,
  each a protocol and a value; [Protocols] lists the protocols in order.  The
  interface value may be [nil]. *)

Module ma.

Record Protocol : Type := mkProtocol { Name : string; Code : Z }.

Record Component : Type := mkComponent { protocol : Protocol; value : list byte }.

(** A non-nil address. *)
Definition addr : Type := list Component.

(** The interface value [ma.Multiaddr]; [None] is [nil]. *)
Definition Multiaddr : Type := option addr.

Definition Protocols (a : addr) : list Protocol := map protocol a.

(** The binary encoding, [Multiaddr.Bytes()], is the address library's. *)
Class Encoding : Type := { Bytes : addr -> list byte }.

End ma.

(** ** [core/network]: the two enumerations the code uses *)

Module network.

(** The source names [DirInbound] and the three reachability values. *)
Inductive Direction : Type := DirUnknown | DirInbound | DirOutbound.

Inductive Reachability : Type :=
| ReachabilityUnknown
| ReachabilityPublic
| ReachabilityPrivate.

End network.

(** ** [golang.org/x/exp/slices] *)

Module slices.

(** [slices.EqualFunc]: [false] when the lengths differ, otherwise [eq] is
    asked at every index in turn. *)
Definition EqualFunc {A B : Type} (s1 : list A) (s2 : list B) (eq : A -> B -> bool) : bool :=
  if negb (length s1 =? length s2)%nat then false
  else forallb (fun p => eq p.1 p.2) (zip s1 s2).

End slices.

(** ** [package libp2pwebtransport]: the listener *)

Module libp2pwebtransport.

Definition errClosed : error := errors_New "closed".

Definition queueLen : nat := 16.

(** [net/http] status codes. *)
Definition StatusBadRequest : Z := 400.
Definition StatusForbidden : Z := 403.
Definition StatusServiceUnavailable : Z := 503.

Definition peer_ID : Type := string.
Definition net_Addr : Type := string.

(** The part of [*http.Request] the handler reads: the parsed query,
    [r.URL.Query()], a [map[string][]string], and [r.RemoteAddr]. *)
Record Request : Type := mkRequest {
  URL_Query : gmap string (list string);
  RemoteAddr : string
}.

Record connMultiaddrs : Type := mkConnMultiaddrs {
  local : ma.Multiaddr;
  remote : ma.Multiaddr
}.

(** [sec.SecureConn], the secured connection Noise returns: its remote peer. *)
Record SecureConn : Type := mkSecureConn { RemotePeer : peer_ID }.

Record connSecurityMultiaddrs : Type := mkSecureConnMultiaddrs {
  ConnSecurity : SecureConn;
  ConnMultiaddrs : connMultiaddrs
}.

(** [network.ConnManagementScope]: the reservation [OpenConnection] returns.
    [scope_id] tells reservations apart in the event list. *)
Record ConnManagementScope : Type := mkScope {
  scope_id : nat;
  scope_SetPeer : peer_ID -> option error
}.

(** [*webtransport.Session], as far as [handshake] uses it. *)
Record Session : Type := mkSession {
  sess_id : nat;
  sess_LocalAddr : net_Addr;
  sess_RemoteAddr : net_Addr;
  sess_AcceptStream : result nat
}.

(** [connmgr.ConnectionGater]. *)
Record ConnectionGater : Type := mkGater {
  InterceptAccept : connMultiaddrs -> bool;
  InterceptSecured : network.Direction -> peer_ID -> connSecurityMultiaddrs -> bool
}.

(** [*noise.SessionTransport], the value [WithSessionOptions] returns. *)
Record SessionTransport : Type := mkSessionTransport {
  SecureInbound : nat -> peer_ID -> result SecureConn
}.

(** [l.transport]: the gater (possibly [nil]), the resource manager, the
    certificate manager and Noise.  [handshake] calls
    [certManager.SerializedCertHashes()] without a nil check whenever the TLS
    configuration is not static, so the certificate manager is represented by
    the hashes that call returns. *)
Record transport : Type := mkTransport {
  gater : option ConnectionGater;
  rcmgr_OpenConnection : network.Direction -> bool -> ma.Multiaddr -> result ConnManagementScope;
  certManager_SerializedCertHashes : list (list byte);
  noise_WithSessionOptions : list (list byte) -> result SessionTransport
}.

(** [webtransport.Server]: how [Upgrade] answers a request. *)
Record Server : Type := mkServer {
  Upgrade : Request -> result Session
}.

(** Modelled from the spec: [newConn] is defined in [conn.go], outside this
    source file.  A Connection carries the remote peer identity and the local
    and remote addresses (the secured connection) and the underlying session;
    it is built with the reservation, which it keeps. *)
Record conn : Type := newConn {
  conn_session : Session;
  conn_sconn : connSecurityMultiaddrs;
  conn_scope : ConnManagementScope
}.

(** The listener's own state: [ctx_done] says whether [l.ctx] has been
    cancelled, [queue] is the buffered channel of ready connections. *)
Record listener : Type := mkListener {
  l_transport : transport;
  isStaticTLSConf : bool;
  server : Server;
  ctx_done : bool;
  multiaddr : ma.Multiaddr;
  queue : chan conn
}.

(** Package-level declarations of [libp2pwebtransport] that live in other
    files of the package: the two address translators and the session error
    code used for gating. *)
Class Package : Type := {
  toWebtransportMultiaddr : net_Addr -> result ma.Multiaddr;
  stringToWebtransportMultiaddr : string -> result ma.Multiaddr;
  errorCodeConnectionGating : Z
}.

(** What one run of [httpHandler] does to its collaborators, in order.
    [EvOpenConnection] records a reservation that [OpenConnection] opened,
    [EvQueueSend] a send into [l.queue] that proceeded; the other events record
    calls. *)
Inductive Event : Type :=
| EvWriteHeader (status : Z)
| EvInterceptAccept (addrs : connMultiaddrs)
| EvOpenConnection (remote : ma.Multiaddr)
| EvUpgrade
| EvHandshake
| EvInterceptSecured (p : peer_ID)
| EvCloseWithError (sess : nat) (code : Z) (msg : string)
| EvSetPeer (scope : nat) (p : peer_ID)
| EvDone (scope : nat)
| EvAddConn (c : conn)
| EvQueueSend (c : conn).

Section Listener.
Context `{Package}.

(** [newListener], without the serving goroutine it starts. *)
Definition newListener (addr : net_Addr) (t : transport) (isStatic : bool)
    (srv : Server) : result listener :=
  match toWebtransportMultiaddr addr with
  | Err err => Err err
  | Ok localMultiaddr =>
      Ok {| l_transport := t;
            isStaticTLSConf := isStatic;
            server := srv;
            ctx_done := false;
            multiaddr := localMultiaddr;
            queue := make queueLen |}
  end.

(** [handshake]. *)
Definition handshake (l : listener) (sess : Session) : result connSecurityMultiaddrs :=
  match toWebtransportMultiaddr (sess_LocalAddr sess) with
  | Err err => Err (fmt_Errorf "error determiniting local addr: %w" [verb_w err])
  | Ok local_ =>
  match toWebtransportMultiaddr (sess_RemoteAddr sess) with
  | Err err => Err (fmt_Errorf "error determiniting remote addr: %w" [verb_w err])
  | Ok remote_ =>
  match sess_AcceptStream sess with
  | Err err => Err err
  | Ok str =>
  let earlyData :=
    if negb (isStaticTLSConf l)
    then certManager_SerializedCertHashes (l_transport l)
    else [] in
  match noise_WithSessionOptions (l_transport l) earlyData with
  | Err err => Err (fmt_Errorf "failed to initialize Noise session: %w" [verb_w err])
  | Ok n =>
  match SecureInbound n str "" with
  | Err err => Err err
  | Ok c =>
      Ok {| ConnSecurity := c;
            ConnMultiaddrs := {| local := local_; remote := remote_ |} |}
  end end end end end.

(** [r.URL.Query()["type"]] must be the one-element list ["noise"]. *)
Definition bad_type_selector (r : Request) : bool :=
  let typ := URL_Query r !! "type" in
  negb (bool_decide (is_Some typ))
  || negb (length (default [] typ) =? 1)%nat
  || negb (String.eqb (hd "" (default [] typ)) "noise").

Definition set_queue (l : listener) (q : chan conn) : listener :=
  {| l_transport := l_transport l;
     isStaticTLSConf := isStaticTLSConf l;
     server := server l;
     ctx_done := ctx_done l;
     multiaddr := multiaddr l;
     queue := q |}.

(** [httpHandler]: the events of the run and the listener afterwards. *)
Definition httpHandler (l : listener) (r : Request) : list Event * listener :=
  if bad_type_selector r then ([EvWriteHeader StatusBadRequest], l) else
  match stringToWebtransportMultiaddr (RemoteAddr r) with
  | Err err => ([EvWriteHeader StatusBadRequest], l)
  | Ok remoteMultiaddr =>
  let addrs := {| local := multiaddr l; remote := remoteMultiaddr |} in
  let '(gated, ev_gate) :=
    match gater (l_transport l) with
    | None => (false, [])
    | Some g => (negb (InterceptAccept g addrs), [EvInterceptAccept addrs])
    end in
  if gated then (ev_gate ++ [EvWriteHeader StatusForbidden], l) else
  match rcmgr_OpenConnection (l_transport l) network.DirInbound false remoteMultiaddr with
  | Err err => (ev_gate ++ [EvWriteHeader StatusServiceUnavailable], l)
  | Ok connScope =>
  let ev_open := ev_gate ++ [EvOpenConnection remoteMultiaddr] in
  let done := EvDone (scope_id connScope) in
  match Upgrade (server l) r with
  | Err err => (ev_open ++ [EvUpgrade; EvWriteHeader 500; done], l)
  | Ok sess =>
  let close code := EvCloseWithError (sess_id sess) code "" in
  match handshake l sess with
  | Err err => (ev_open ++ [EvUpgrade; EvHandshake; close 1; done], l)
  | Ok sconn =>
  let p := RemotePeer (ConnSecurity sconn) in
  let '(rejected, ev_sec) :=
    match gater (l_transport l) with
    | None => (false, [])
    | Some g => (negb (InterceptSecured g network.DirInbound p sconn), [EvInterceptSecured p])
    end in
  let ev_hs := ev_open ++ [EvUpgrade; EvHandshake] ++ ev_sec in
  if rejected then (ev_hs ++ [close errorCodeConnectionGating; done], l) else
  match scope_SetPeer connScope p with
  | Some err => (ev_hs ++ [EvSetPeer (scope_id connScope) p; close 1; done], l)
  | None =>
  let c := newConn sess sconn connScope in
  let ev_conn := ev_hs ++ [EvSetPeer (scope_id connScope) p; EvAddConn c] in
  match try_send (queue l) c with
  | Some q => (ev_conn ++ [EvQueueSend c], set_queue l q)
  | None => (ev_conn ++ [close 1; done], l)
  end end end end end end.

(** The outcome of a call that may still be waiting. *)
Inductive AcceptResult : Type :=
| Blocks
| Returns (c : option conn) (err : option error).

(** [Accept]: a [select] over [l.ctx.Done()] and a receive from [l.queue].
    When no case can proceed the call waits; when both can, the Go runtime
    picks one of them, and [pick_done] is that choice. *)
Definition Accept (pick_done : bool) (l : listener) : AcceptResult * listener :=
  match ctx_done l, try_recv (queue l) with
  | false, None => (Blocks, l)
  | true, None => (Returns None (Some errClosed), l)
  | false, Some (c, q) => (Returns (Some c) None, set_queue l q)
  | true, Some (c, q) =>
      if pick_done then (Returns None (Some errClosed), l)
      else (Returns (Some c) None, set_queue l q)
  end.

(** [Close], as far as the listener's own state goes: [l.ctxCancel()]. *)
Definition Close (l : listener) : listener :=
  {| l_transport := l_transport l;
     isStaticTLSConf := isStaticTLSConf l;
     server := server l;
     ctx_done := true;
     multiaddr := multiaddr l;
     queue := queue l |}.

(** The operations that run against one listener, and the states they reach
    from a freshly built listener.  The collaborators may answer differently
    from one handler run to the next. *)
Inductive reachable : listener -> Prop :=
| reach_new addr t isStatic srv l :
    newListener addr t isStatic srv = Ok l -> reachable l
| reach_handler l t srv r :
    reachable l ->
    reachable (httpHandler
                 {| l_transport := t; isStaticTLSConf := isStaticTLSConf l;
                    server := srv; ctx_done := ctx_done l;
                    multiaddr := multiaddr l; queue := queue l |} r).2
| reach_accept l pick :
    reachable l -> reachable (Accept pick l).2
| reach_close l :
    reachable l -> reachable (Close l).

(** Successive calls of [Accept], one per element of [picks], stopping at the
    first call that waits. *)
Fixpoint accept_all (picks : list bool) (l : listener) : list AcceptResult * listener :=
  match picks with
  | [] => ([], l)
  | pick :: rest =>
      match Accept pick l with
      | (Blocks, l') => ([Blocks], l')
      | (res, l') => let '(more, l'') := accept_all rest l' in (res :: more, l'')
      end
  end.

End Listener.

(** Counting in an event list. *)
Definition is_done (e : Event) : bool :=
  match e with EvDone _ => true | _ => false end.
Definition is_queue_send (e : Event) : bool :=
  match e with EvQueueSend _ => true | _ => false end.
Definition is_open (e : Event) : bool :=
  match e with EvOpenConnection _ => true | _ => false end.
Definition count (p : Event -> bool) (evs : list Event) : nat :=
  length (filter (fun e => p e = true) evs).

(** The status the handler answered with, if it wrote one. *)
Fixpoint response_status (evs : list Event) : option Z :=
  match evs with
  | [] => None
  | EvWriteHeader status :: _ => Some status
  | _ :: rest => response_status rest
  end.

(** The bound the accept queue is built with. *)
Definition queue_bounded (q : chan conn) : Prop :=
  cap q = queueLen ∧ (length (buf q) <= queueLen)%nat.


(** More counting in an event list. *)
Definition is_header (e : Event) : bool :=
  match e with EvWriteHeader _ => true | _ => false end.
Definition is_close_session (e : Event) : bool :=
  match e with EvCloseWithError _ _ _ => true | _ => false end.

(** The connections a handler run sent into the queue, and the connection a
    call of [Accept] returned. *)
Definition queued (evs : list Event) : list conn :=
  omap (fun e => match e with EvQueueSend c => Some c | _ => None end) evs.

Definition accepted (res : AcceptResult) : list conn :=
  match res with
  | Returns (Some c) _ => [c]
  | _ => []
  end.

(** One operation on a listener: a handler run with the collaborators it
    meets, a call of [Accept] with the choice of the runtime, or [Close]. *)
Inductive Op : Type :=
| OpHandle (t : transport) (srv : Server) (r : Request)
| OpAccept (pick_done : bool)
| OpClose.

Section Runs.
Context `{Package}.

(** A sequence of operations, one after the other: the connections the
    handlers sent into the queue, the connections [Accept] returned, both in
    order, and the listener afterwards.  A call of [Accept] that waits returns
    nothing while the rest of the sequence runs. *)
Fixpoint run (ops : list Op) (l : listener) : list conn * list conn * listener :=
  match ops with
  | [] => ([], [], l)
  | OpHandle t srv r :: rest =>
      let '(evs, l1) :=
        httpHandler {| l_transport := t; isStaticTLSConf := isStaticTLSConf l;
                       server := srv; ctx_done := ctx_done l;
                       multiaddr := multiaddr l; queue := queue l |} r in
      let '(s, a, l') := run rest l1 in
      (queued evs ++ s, a, l')
  | OpAccept pick :: rest =>
      let '(res, l1) := Accept pick l in
      let '(s, a, l') := run rest l1 in
      (s, accepted res ++ a, l')
  | OpClose :: rest => run rest (Close l)
  end.

End Runs.

End libp2pwebtransport.

(** ** [package pb]: the AutoNAT v2 wire messages

    The generated code is not part of the source file.  The messages are the
    ones the client builds and takes apart; the numbers of the two status
    enums and the name table [DialStatus_name] are parameters. *)

Module pb.

Record DialRequest : Type := mkDialRequest { Addrs : list (list byte); Nonce : N }.

Record DialResponse : Type := mkDialResponse {
  Status : Z;        (* DialResponse_ResponseStatus, an int32 *)
  AddrIdx : N;       (* uint32 *)
  DialStatus : Z     (* DialStatus, an int32 *)
}.

Record DialDataRequest : Type := mkDialDataRequest {
  ddr_AddrIdx : N;   (* uint32 *)
  NumBytes : N       (* uint64 *)
}.

Record DialDataResponse : Type := mkDialDataResponse { Data : list byte }.

Record DialBack : Type := mkDialBack { db_Nonce : N }.

(** [pb.Message]: the [Msg] oneof, which may be unset. *)
Inductive Message : Type :=
| Msg_nil
| Message_DialRequest (m : DialRequest)
| Message_DialResponse (m : DialResponse)
| Message_DialDataRequest (m : DialDataRequest)
| Message_DialDataResponse (m : DialDataResponse).

Definition GetDialResponse (m : Message) : option DialResponse :=
  match m with Message_DialResponse r => Some r | _ => None end.

Definition GetDialDataRequest (m : Message) : option DialDataRequest :=
  match m with Message_DialDataRequest r => Some r | _ => None end.

(** What [%T] prints for [msg.Msg]. *)
Definition Msg_type (m : Message) : string :=
  match m with
  | Msg_nil => "<nil>"
  | Message_DialRequest _ => "*pb.Message_DialRequest"
  | Message_DialResponse _ => "*pb.Message_DialResponse"
  | Message_DialDataRequest _ => "*pb.Message_DialDataRequest"
  | Message_DialDataResponse _ => "*pb.Message_DialDataResponse"
  end.

Class Enums : Type := {
  DialResponse_E_DIAL_REFUSED : Z;
  DialResponse_OK : Z;
  DialStatus_UNUSED : Z;
  DialStatus_E_DIAL_ERROR : Z;
  DialStatus_E_DIAL_BACK_ERROR : Z;
  DialStatus_OK : Z;
  DialStatus_name : gmap Z string
}.

End pb.

(** ** [package autonatv2]: the client *)

Module autonatv2.

Import pb.

(** [Result] is declared in another file of the package; these are the four
    fields [newResults] fills.  [Status] is a [pb.DialStatus]. *)
Record Result : Type := mkResult {
  Idx : Z;
  Addr : ma.Multiaddr;
  Reachability : network.Reachability;
  Status : Z
}.

(** [Result{}]. *)
Definition Result_zero : Result :=
  {| Idx := 0; Addr := None; Reachability := network.ReachabilityUnknown; Status := 0 |}.

(** Package-level declarations of [autonatv2] that live in other files. *)
Class Package : Type := {
  DialProtocol : string;
  DialBackProtocol : string;
  ServiceName : string;
  maxHandshakeSizeBytes : N;
  ErrDialRefused : error
}.

(** A reference to a channel of addresses: [None] is the [nil] channel,
    [Some l] the channel allocated at [l]. *)
Abbreviation chanref := (option positive).

(** The channels that [make] has allocated. *)
Abbreviation Heap := (gmap positive (chan ma.Multiaddr)).

Record Client : Type := mkClient {
  dialData : list byte;
  dialBackQueues : gmap N chanref
}.

(** [NewClient], without the host. *)
Definition NewClient : Client :=
  {| dialData := replicate 4096 Byte.x00; dialBackQueues := ∅ |}.

Definition set_dialBackQueues (ac : Client) (m : gmap N chanref) : Client :=
  {| dialData := dialData ac; dialBackQueues := m |}.

(** How a function ends: it returns its two results, it panics, or it never
    returns. *)
Inductive Outcome : Type :=
| Returned (r : Result) (err : option error)
| Panics
| Diverges.

(** What a call does to its stream, to the mutex and to the map, in order. *)
Inductive Event : Type :=
| EvReset
| EvClose
| EvSetDeadline
| EvReleaseMemory
| EvLock
| EvUnlock
| EvMapInsert (nonce : N)
| EvMapLookup (nonce : N)
| EvMapDelete (nonce : N)
| EvWriteMsg (m : Message)
| EvReadMsg (m : Message)
| EvReadDialBack (m : DialBack).

(** The case of the dial-back [select] that the runtime lets proceed. *)
Inductive SelectCase : Type := CaseChan | CaseCtxDone | CaseTimer.

(** An inbound dial-back stream as [handleDialBack] sees it. *)
Record DialBackStream : Type := mkDialBackStream {
  db_SetService : option error;
  db_ReserveMemory : option error;
  db_ReadMsg : result DialBack;
  db_LocalMultiaddr : ma.Multiaddr
}.

(** What surrounds one call of [CheckReachability]: the host and the stream
    it opens, the random source, the dial-back streams handled by other
    goroutines while the call is in flight, and the case the runtime picks in
    the dial-back [select].
    [firstWriteError] is the index of the first [WriteMsg] that fails, if one
    does (the client stops at the first failure); [ReadMsg i] is what the
    [i]-th [ReadMsg] yields. *)
Record Env : Type := mkEnv {
  NewStream : option error;
  SetService : option error;
  ReserveMemory : option error;
  rand_Uint64 : N;
  firstWriteError : option (nat * error);
  ReadMsg : nat -> result Message;
  dialBacks : list DialBackStream;
  select_pick : SelectCase
}.

Definition WriteMsg (e : Env) (i : nat) : option error :=
  match firstWriteError e with
  | Some (k, err) => if (i =? k)%nat then Some err else None
  | None => None
  end.

(** [int(x)] for a [uint64] [x]. *)
Definition int_of_uint64 (x : N) : Z :=
  let z := Z.of_N x mod 2 ^ 64 in
  if z <? 2 ^ 63 then z else z - 2 ^ 64.

Definition len {A : Type} (l : list A) : Z := Z.of_nat (length l).

(** [areAddrsConsistent]. *)
Definition areAddrsConsistent (a b : ma.Multiaddr) : bool :=
  match a, b with
  | Some a, Some b =>
      let aprotos := ma.Protocols a in
      let bprotos := ma.Protocols b in
      slices.EqualFunc aprotos bprotos (fun p1 p2 => ma.Code p1 =? ma.Code p2)
  | _, _ => false
  end.

(** [select { case ch <- v: default: }] on a channel reference: a send on the
    [nil] channel can never proceed, so the [default] branch runs. *)
Definition select_send (heap : Heap) (ch : chanref) (v : ma.Multiaddr) : Heap :=
  match ch with
  | None => heap
  | Some l =>
      match heap !! l with
      | Some c =>
          match try_send c v with
          | Some c' => <[l := c']> heap
          | None => heap
          end
      | None => heap
      end
  end.

(** [ch := make(chan ma.Multiaddr, 1)] at a fresh location, and
    [ac.dialBackQueues[nonce] = ch]. *)
Definition register (ac : Client) (heap : Heap) (nonce : N) : positive * Client * Heap :=
  let ch := fresh (dom heap) in
  (ch,
   set_dialBackQueues ac (<[nonce := Some ch]> (dialBackQueues ac)),
   <[ch := make 1]> heap).

(** [handleDialBack]. *)
Definition handleDialBack (ac : Client) (heap : Heap) (s : DialBackStream)
    : Client * Heap * list Event :=
  match db_SetService s with
  | Some err => (ac, heap, [EvReset])
  | None =>
  match db_ReserveMemory s with
  | Some err => (ac, heap, [EvReset])
  | None =>
  match db_ReadMsg s with
  | Err err => (ac, heap, [EvSetDeadline; EvReset; EvClose; EvReleaseMemory])
  | Ok msg =>
      let nonce := db_Nonce msg in
      let ch := default None (dialBackQueues ac !! nonce) in
      (ac, select_send heap ch (db_LocalMultiaddr s),
       [EvSetDeadline; EvReadDialBack msg; EvLock; EvMapLookup nonce; EvUnlock;
        EvClose; EvReleaseMemory])
  end end end.

Section Client.
Context `{ma.Encoding} `{Enums} `{Package}.

(** [newDialRequest]; [None] when an address is [nil], on which [a.Bytes()]
    panics. *)
Definition newDialRequest (highPriorityAddrs lowPriorityAddrs : list ma.Multiaddr)
    (nonce : N) : option Message :=
  match mapM (fmap ma.Bytes) (highPriorityAddrs ++ lowPriorityAddrs) with
  | None => None
  | Some addrbs => Some (Message_DialRequest {| Addrs := addrbs; Nonce := nonce |})
  end.

(** The loop of [sendDialData], from the [w]-th write of the stream on.
    The first component is [None] while the loop is still running when the
    fuel is used up. *)
Fixpoint sendDialData_loop (fuel : nat) (ac : Client) (e : Env) (remain : Z) (w : nat)
    : option (option error) * list Event :=
  if negb (remain >? 0) then (Some None, []) else
  match fuel with
  | O => (None, [])
  | S fuel' =>
      let end_ := if remain >? len (dialData ac) then len (dialData ac) else remain in
      let msg := Message_DialDataResponse {| Data := take (Z.to_nat end_) (dialData ac) |} in
      match WriteMsg e w with
      | Some err => (Some (Some err), [EvWriteMsg msg])
      | None =>
          let '(r, evs) := sendDialData_loop fuel' ac e (remain - end_) (S w) in
          (r, EvWriteMsg msg :: evs)
      end
  end.

(** [sendDialData].  Each turn of the loop sends at least one byte unless
    [ac.dialData] is empty, in which case the loop only ends at a failing
    write; the fuel covers both. *)
Definition sendDialData (ac : Client) (e : Env) (req : DialDataRequest) (w : nat)
    : option (option error) * list Event :=
  let nb := NumBytes req in
  let fuel := (Z.to_nat (int_of_uint64 nb)
               + match firstWriteError e with Some (k, _) => S k | None => 0 end)%nat in
  sendDialData_loop fuel ac e (int_of_uint64 nb) w.

(** [newResults].  An index outside the slice would panic. *)
Definition newResults (resp : DialResponse)
    (highPriorityAddrs lowPriorityAddrs : list ma.Multiaddr)
    (dialBackAddr : ma.Multiaddr) : Outcome :=
  if Z.of_N (AddrIdx resp) >=? len highPriorityAddrs + len lowPriorityAddrs then
    Returned Result_zero
      (Some (fmt_Errorf "addrIdx out of range: %d 0-%d"
               [verb_d (Z.of_N (AddrIdx resp));
                verb_d (len highPriorityAddrs + len lowPriorityAddrs - 1)]))
  else
  let idx := Z.of_N (AddrIdx resp) in
  match (if idx <? len highPriorityAddrs
         then highPriorityAddrs !! Z.to_nat idx
         else lowPriorityAddrs !! Z.to_nat (idx - len highPriorityAddrs)) with
  | None => Panics
  | Some addr =>
      let status := DialStatus resp in
      let '(rch, status) :=
        if status =? DialStatus_OK then
          if areAddrsConsistent dialBackAddr addr
          then (network.ReachabilityPublic, status)
          else (network.ReachabilityUnknown, DialStatus_E_DIAL_BACK_ERROR)
        else if status =? DialStatus_E_DIAL_ERROR then
          (network.ReachabilityPrivate, status)
        else (network.ReachabilityUnknown, status) in
      Returned {| Idx := idx; Addr := addr; Reachability := rch; Status := status |} None
  end.

(** The dial-back [select] of [CheckReachability]: the receive proceeds only
    when the channel holds an address and the runtime picks that case; the
    context and the timer end the wait with no address. *)
Definition await_dialBack (heap : Heap) (ch : positive) (pick : SelectCase)
    : ma.Multiaddr * Heap :=
  match pick, heap !! ch ≫= try_recv with
  | CaseChan, Some (at_, c') => (at_, <[ch := c']> heap)
  | _, _ => (None, heap)
  end.

Definition failed (err : error) : Outcome := Returned Result_zero (Some err).

(** [CheckReachability], from building the request to the first [switch]:
    either the call ends here, or a Dial Response has been read. *)
Definition exchange (ac : Client) (e : Env)
    (highPriorityAddrs lowPriorityAddrs : list ma.Multiaddr) (nonce : N)
    : (Outcome + DialResponse) * list Event :=
  match newDialRequest highPriorityAddrs lowPriorityAddrs nonce with
  | None => (inl Panics, [])
  | Some msg =>
  match WriteMsg e 0 with
  | Some err =>
      (inl (failed (fmt_Errorf "dial request write: %w" [verb_w err])),
       [EvWriteMsg msg; EvReset])
  | None =>
  match ReadMsg e 0 with
  | Err err =>
      (inl (failed (fmt_Errorf "dial msg read: %w" [verb_w err])),
       [EvWriteMsg msg; EvReset])
  | Ok msg1 =>
  let ev1 := [EvWriteMsg msg; EvReadMsg msg1] in
  match GetDialResponse msg1, GetDialDataRequest msg1 with
  | Some resp, _ => (inr resp, ev1)
  | None, Some req =>
      if Z.of_N (ddr_AddrIdx req) >=? len highPriorityAddrs then
        (inl (failed (fmt_Errorf "dial data requested for low priority address" [])),
         ev1 ++ [EvReset])
      else if (maxHandshakeSizeBytes <? NumBytes req)%N then
        (inl (failed (fmt_Errorf "dial data requested too high: %d"
                        [verb_d (Z.of_N (NumBytes req))])),
         ev1 ++ [EvReset])
      else
      match sendDialData ac e req 1 with
      | (None, evs) => (inl Diverges, ev1 ++ evs)
      | (Some (Some err), evs) =>
          (inl (failed (fmt_Errorf "dial data send: %w" [verb_w err])),
           ev1 ++ evs ++ [EvReset])
      | (Some None, evs) =>
      match ReadMsg e 1 with
      | Err err =>
          (inl (failed (fmt_Errorf "dial response read: %w" [verb_w err])),
           ev1 ++ evs ++ [EvReset])
      | Ok msg2 =>
      match GetDialResponse msg2 with
      | None =>
          (inl (failed (fmt_Errorf "invalid response type: %T" [verb_T (Msg_type msg2)])),
           ev1 ++ evs ++ [EvReadMsg msg2; EvReset])
      | Some resp => (inr resp, ev1 ++ evs ++ [EvReadMsg msg2])
      end end end
  | None, None =>
      (inl (failed (fmt_Errorf "invalid msg type: %T" [verb_T (Msg_type msg1)])),
       ev1 ++ [EvReset])
  end end end end.

(** [CheckReachability], from [resp := msg.GetDialResponse()] to the end. *)
Definition resolve (heap : Heap) (e : Env) (ch : positive)
    (highPriorityAddrs lowPriorityAddrs : list ma.Multiaddr) (resp : DialResponse)
    : Outcome * Heap :=
  if negb (pb.Status resp =? DialResponse_OK) then
    if pb.Status resp =? DialResponse_E_DIAL_REFUSED then
      (failed (fmt_Errorf "dial request: %w" [verb_w ErrDialRefused]), heap)
    else
      (failed (fmt_Errorf "dial request: status %d %s"
                 [verb_d (pb.Status resp);
                  verb_s (default "" (DialStatus_name !! pb.Status resp))]), heap)
  else if DialStatus resp =? DialStatus_UNUSED then
    (failed (fmt_Errorf "dial request failed: received invalid dial status 0" []), heap)
  else
  let '(dialBackAddr, heap') :=
    if (DialStatus resp =? DialStatus_OK)
       && (Z.of_N (AddrIdx resp) <? len highPriorityAddrs + len lowPriorityAddrs)
    then await_dialBack heap ch (select_pick e)
    else (None, heap) in
  (newResults resp highPriorityAddrs lowPriorityAddrs dialBackAddr, heap').

(** The dial-back streams that other goroutines handle while the call is in
    flight.  Between registering the nonce and the dial-back [select] the call
    does not touch its channel, so handling them right after the registration
    gives the same channel contents as any interleaving in that window. *)
Definition concurrent_dialBacks (ac : Client) (heap : Heap) (ss : list DialBackStream)
    : Client * Heap :=
  foldl (fun st s => (handleDialBack st.1 st.2 s).1) (ac, heap) ss.

(** [CheckReachability]: the outcome, the client and the channels afterwards,
    and the events of the call on its own stream, mutex and map.  The deferred
    calls run, last first, when the function returns or panics. *)
Definition CheckReachability (ac : Client) (heap : Heap) (e : Env)
    (highPriorityAddrs lowPriorityAddrs : list ma.Multiaddr)
    : Outcome * Client * Heap * list Event :=
  match NewStream e with
  | Some err =>
      (failed (fmt_Errorf "open %s stream: %w" [verb_s DialProtocol; verb_w err]),
       ac, heap, [])
  | None =>
  match SetService e with
  | Some err =>
      (failed (fmt_Errorf "attach stream %s to service %s: %w"
                 [verb_s DialProtocol; verb_s ServiceName; verb_w err]),
       ac, heap, [EvReset])
  | None =>
  match ReserveMemory e with
  | Some err =>
      (failed (fmt_Errorf "failed to reserve memory for stream %s: %w"
                 [verb_s DialProtocol; verb_w err]),
       ac, heap, [EvReset])
  | None =>
  let nonce := rand_Uint64 e in
  let '(ch, ac1, heap1) := register ac heap nonce in
  let registered := [EvSetDeadline; EvLock; EvMapInsert nonce; EvUnlock] in
  let '(ac2, heap2) := concurrent_dialBacks ac1 heap1 (dialBacks e) in
  let '(out, heap3, evs) :=
    match exchange ac2 e highPriorityAddrs lowPriorityAddrs nonce with
    | (inl out, evs) => (out, heap2, evs)
    | (inr resp, evs) =>
        let '(out, heap') := resolve heap2 e ch highPriorityAddrs lowPriorityAddrs resp in
        (out, heap', evs)
    end in
  match out with
  | Diverges => (Diverges, ac2, heap3, registered ++ evs)
  | _ =>
      let ac3 := set_dialBackQueues ac2 (delete nonce (dialBackQueues ac2)) in
      (out, ac3, heap3,
       registered ++ evs ++ [EvLock; EvMapDelete nonce; EvUnlock; EvClose; EvReleaseMemory])
  end
  end end end.

(** The channel a call allocates, the channels as they are when the call
    reaches its dial-back [select], and the address that [select] yields
    ([nil] when none was obtained). *)
Definition channel_of (heap : Heap) : positive := fresh (dom heap).

Definition heap_at_select (ac : Client) (heap : Heap) (e : Env) : Heap :=
  let '(_, ac1, heap1) := register ac heap (rand_Uint64 e) in
  (concurrent_dialBacks ac1 heap1 (dialBacks e)).2.

Definition dialBackAddr_obtained (ac : Client) (heap : Heap) (e : Env) : ma.Multiaddr :=
  (await_dialBack (heap_at_select ac heap e) (channel_of heap) (select_pick e)).1.

End Client.

(** A dial-back stream whose handler gets as far as the send, with [nonce]
    in the message it read. *)
Definition delivers (nonce : N) (s : DialBackStream) : bool :=
  match db_SetService s, db_ReserveMemory s, db_ReadMsg s with
  | None, None, Ok msg => bool_decide (db_Nonce msg = nonce)
  | _, _, _ => false
  end.

(** Every channel the map refers to has been allocated. *)
Definition refs_allocated (ac : Client) (heap : Heap) : Prop :=
  ∀ n l, dialBackQueues ac !! n = Some (Some l) -> l ∈ dom heap.

(** Projections of an event list. *)
Definition received (evs : list Event) : list Message :=
  omap (fun ev => match ev with EvReadMsg m => Some m | _ => None end) evs.

Definition sent (evs : list Event) : list Message :=
  omap (fun ev => match ev with EvWriteMsg m => Some m | _ => None end) evs.

Definition is_DialDataResponse (m : Message) : bool :=
  match m with Message_DialDataResponse _ => true | _ => false end.

(** The mutex discipline of an event list: [Lock] and [Unlock] alternate, and
    the map is only touched while the mutex is held.  [held] is the state of
    the mutex before the list. *)
Fixpoint mutex_ok (held : bool) (evs : list Event) : bool :=
  match evs with
  | [] => negb held
  | EvLock :: rest => negb held && mutex_ok true rest
  | EvUnlock :: rest => held && mutex_ok false rest
  | (EvMapInsert _ | EvMapLookup _ | EvMapDelete _) :: rest => held && mutex_ok held rest
  | _ :: rest => mutex_ok held rest
  end.

Definition writes_map (ev : Event) : bool :=
  match ev with EvMapInsert _ | EvMapDelete _ => true | _ => false end.


(** The dial data a call wrote: the [Data] of each Dial Data Response, in
    order, and the number of bytes in a list of chunks. *)
Definition data_sent (evs : list Event) : list (list byte) :=
  omap (fun ev => match ev with
                  | EvWriteMsg (Message_DialDataResponse d) => Some (Data d)
                  | _ => None
                  end) evs.

Definition total_bytes (chunks : list (list byte)) : Z :=
  foldr (fun c acc => len c + acc) 0 chunks.

(** Counting in an event list. *)
Definition is_reset (ev : Event) : bool :=
  match ev with EvReset => true | _ => false end.
Definition is_close (ev : Event) : bool :=
  match ev with EvClose => true | _ => false end.
Definition is_release (ev : Event) : bool :=
  match ev with EvReleaseMemory => true | _ => false end.
Definition count (p : Event -> bool) (evs : list Event) : nat :=
  length (filter (fun ev => p ev = true) evs).

(** A stricter discipline than [mutex_ok]: besides, nothing but the map is
    touched while the mutex is held, so the mutex is never held across an
    operation on the stream. *)
Fixpoint critical_sections_ok (held : bool) (evs : list Event) : bool :=
  match evs with
  | [] => negb held
  | EvLock :: rest => negb held && critical_sections_ok true rest
  | EvUnlock :: rest => held && critical_sections_ok false rest
  | (EvMapInsert _ | EvMapLookup _ | EvMapDelete _) :: rest =>
      held && critical_sections_ok held rest
  | _ :: rest => negb held && critical_sections_ok held rest
  end.

(** No channel holds more than its capacity. *)
Definition chans_bounded (heap : Heap) : Prop :=
  ∀ l c, heap !! l = Some c -> (length (buf c) <= cap c)%nat.

(** The chunks in which [n] bytes of dial data go out of a buffer [data]:
    the whole buffer as often as it fits, then the rest. *)
Definition dial_data_chunks (data : list byte) (n : Z) : list (list byte) :=
  if n <=? 0 then []
  else replicate (Z.to_nat (n / len data)) data
       ++ (if n mod len data =? 0 then [] else [take (Z.to_nat (n mod len data)) data]).

Definition write_chunk (c : list byte) : Event :=
  EvWriteMsg (Message_DialDataResponse {| Data := c |}).

(** The events with which a call that got its stream starts and, when it
    returns or panics, ends. *)
Definition registered (nonce : N) : list Event :=
  [EvSetDeadline; EvLock; EvMapInsert nonce; EvUnlock].

Definition deferred (nonce : N) : list Event :=
  [EvLock; EvMapDelete nonce; EvUnlock; EvClose; EvReleaseMemory].

(** The events that are operations on the stream of the call. *)
Definition is_stream_io (ev : Event) : bool :=
  match ev with
  | EvWriteMsg _ | EvReadMsg _ | EvReset => true
  | _ => false
  end.

Definition is_response_read (ev : Event) : bool :=
  match ev with EvReadMsg (Message_DialResponse _) => true | _ => false end.

End autonatv2.

(** ** Concrete collaborators and inputs

    Small, fully concrete instances of the parameters, used to run the
    definitions above on explicit inputs. *)

Module ListenerInputs.

Import libp2pwebtransport.

Definition ip4 : ma.Protocol := ma.mkProtocol "ip4" 4.
Definition ip6 : ma.Protocol := ma.mkProtocol "ip6" 41.
Definition udp : ma.Protocol := ma.mkProtocol "udp" 273.
Definition quic : ma.Protocol := ma.mkProtocol "quic" 460.
Definition webtransport : ma.Protocol := ma.mkProtocol "webtransport" 465.

Definition port (hi lo : byte) : ma.Component := ma.mkComponent udp [hi; lo].

(** /ip4/10.0.0.1/udp/<port>/quic/webtransport *)
Definition wt_addr (hi lo : byte) : ma.addr :=
  [ma.mkComponent ip4 [Byte.x0a; Byte.x00; Byte.x00; Byte.x01]; port hi lo;
   ma.mkComponent quic []; ma.mkComponent webtransport []].

(** /ip6/::1/udp/<port>/quic/webtransport *)
Definition wt_addr6 (hi lo : byte) : ma.addr :=
  [ma.mkComponent ip6 (replicate 15 Byte.x00 ++ [Byte.x01]); port hi lo;
   ma.mkComponent quic []; ma.mkComponent webtransport []].

(** Translators that reject the empty string and accept everything else. *)
Definition translate (s : string) : result ma.Multiaddr :=
  if String.eqb s "" then Err (errors_New "invalid address")
  else Ok (Some (wt_addr Byte.x10 Byte.x01)).

#[export] Instance listener_pkg : Package := {|
  toWebtransportMultiaddr := translate;
  stringToWebtransportMultiaddr := translate;
  errorCodeConnectionGating := 1195463749
|}.

Definition scope7 : ConnManagementScope := mkScope 7 (fun _ => None).

(** The session with identifier [n]. *)
Definition session (n : nat) : Session :=
  mkSession n "10.0.0.1:4097" "10.0.0.2:5000" (Ok 0%nat).

Definition noise_ok : SessionTransport :=
  mkSessionTransport (fun _ _ => Ok (mkSecureConn "QmPeer")).

Definition transport_ok : transport := {|
  gater := Some (mkGater (fun _ => true) (fun _ _ _ => true));
  rcmgr_OpenConnection := fun _ _ _ => Ok scope7;
  certManager_SerializedCertHashes := [];
  noise_WithSessionOptions := fun _ => Ok noise_ok
|}.

Definition server_ok : Server := mkServer (fun _ => Ok (session 0)).

Definition sconn1 : connSecurityMultiaddrs :=
  mkSecureConnMultiaddrs (mkSecureConn "QmPeer")
    (mkConnMultiaddrs (Some (wt_addr Byte.x10 Byte.x01)) (Some (wt_addr Byte.x10 Byte.x01))).

(** The connection over session [n]. *)
Definition conn_of (n : nat) : conn := newConn (session n) sconn1 scope7.

(** A listener with the connections over sessions [1] to [n] waiting in its
    queue, oldest first. *)
Definition listener_with (n : nat) (cancelled : bool) : listener := {|
  l_transport := transport_ok;
  isStaticTLSConf := false;
  server := server_ok;
  ctx_done := cancelled;
  multiaddr := Some (wt_addr Byte.x10 Byte.x01);
  queue := mkChan queueLen (conn_of <$> seq 1 n)
|}.

(** [?type=noise] from a peer whose address translates. *)
Definition request_ok : Request :=
  mkRequest {["type" := ["noise"]]} "10.0.0.2:5000".

(** [?type=noise] from a peer whose address does not translate. *)
Definition request_untranslatable : Request :=
  mkRequest {["type" := ["noise"]]} "".

(** No [type] parameter at all. *)
Definition request_no_selector : Request :=
  mkRequest ∅ "10.0.0.2:5000".

End ListenerInputs.

Module ClientInputs.

Import pb autonatv2.

(** The numbering of [autonatv2.proto]. *)
#[export] Instance enums : Enums := {|
  DialResponse_E_DIAL_REFUSED := 101;
  DialResponse_OK := 200;
  DialStatus_UNUSED := 0;
  DialStatus_E_DIAL_ERROR := 100;
  DialStatus_E_DIAL_BACK_ERROR := 101;
  DialStatus_OK := 200;
  DialStatus_name :=
    {[ 0 := "UNUSED"; 100 := "E_DIAL_ERROR"; 101 := "E_DIAL_BACK_ERROR"; 200 := "OK" ]}
|}.

#[export] Instance client_pkg : Package := {|
  DialProtocol := "/libp2p/autonat/2/dial-request";
  DialBackProtocol := "/libp2p/autonat/2/dial-back";
  ServiceName := "libp2p.autonatv2";
  maxHandshakeSizeBytes := 100000;
  ErrDialRefused := errors_New "dial refused"
|}.

(** A stand-in for the binary encoding: the component values, concatenated. *)
#[export] Instance encoding : ma.Encoding := {|
  ma.Bytes := fun a => flat_map ma.value a
|}.

Definition addr_a : ma.Multiaddr := Some (ListenerInputs.wt_addr Byte.x10 Byte.x01).
Definition addr_a_other_port : ma.Multiaddr := Some (ListenerInputs.wt_addr Byte.x23 Byte.x28).
Definition addr_a6 : ma.Multiaddr := Some (ListenerInputs.wt_addr6 Byte.x10 Byte.x01).

(** A dial-back stream that carries [nonce] and arrived on [local_]. *)
Definition dialBack_ok (nonce : N) (local_ : ma.Multiaddr) : DialBackStream :=
  mkDialBackStream None None (Ok (mkDialBack nonce)) local_.

(** A server that answers the request with [first] and any later read with
    [second]; one dial-back that carries the call's nonce arrives on the
    address with the other port. *)
Definition env_with (first second : Message) : Env := {|
  NewStream := None;
  SetService := None;
  ReserveMemory := None;
  rand_Uint64 := 42;
  firstWriteError := None;
  ReadMsg := fun i => match i with O => Ok first | _ => Ok second end;
  dialBacks := [dialBack_ok 42 addr_a_other_port];
  select_pick := CaseChan
|}.

Definition response (st : Z) (idx : N) (ds : Z) : Message :=
  Message_DialResponse (mkDialResponse st idx ds).

Definition data_request (idx nb : N) : Message :=
  Message_DialDataRequest (mkDialDataRequest idx nb).


(** The same server, on a stream whose [k]-th write fails. *)
Definition env_failing_write (k : nat) (first second : Message) : Env := {|
  NewStream := None;
  SetService := None;
  ReserveMemory := None;
  rand_Uint64 := 42;
  firstWriteError := Some (k, errors_New "stream reset");
  ReadMsg := fun i => match i with O => Ok first | _ => Ok second end;
  dialBacks := [dialBack_ok 42 addr_a_other_port];
  select_pick := CaseChan
|}.

End ClientInputs.

(** * Properties of the listener *)

Section ListenerProperties.
Import libp2pwebtransport.
Context `{Package}.

Lemma try_send_Some {A} (ch ch' : chan A) v :
  try_send ch v = Some ch' ->
  (length (buf ch) < cap ch)%nat ∧ cap ch' = cap ch ∧ buf ch' = buf ch ++ [v].
Proof.
  unfold try_send. destruct (Nat.ltb_spec (length (buf ch)) (cap ch)); [|done].
  intros [= <-]. done.
Qed.

Lemma try_send_full {A} (ch : chan A) v :
  (cap ch <= length (buf ch))%nat -> try_send ch v = None.
Proof.
  intros Hfull. unfold try_send.
  destruct (Nat.ltb_spec (length (buf ch)) (cap ch)); [lia|done].
Qed.

Lemma try_recv_Some {A} (ch ch' : chan A) v :
  try_recv ch = Some (v, ch') -> cap ch' = cap ch ∧ buf ch = v :: buf ch'.
Proof. unfold try_recv. destruct (buf ch) eqn:E; [done|]. by intros [= <- <-]. Qed.

(** Case analysis along the exits of [httpHandler]. *)
Ltac handler_cases :=
  repeat (first
    [ progress simplify_eq/=
    | match goal with
      | |- context [if ?b then _ else _] => destruct b eqn:?
      | |- context [match ?x with _ => _ end] => destruct x eqn:?
      end ]).

(** The queue after a handler run: untouched, or one element longer. *)
Lemma httpHandler_queue (l : listener) (r : Request) :
  queue (httpHandler l r).2 = queue l
  ∨ ∃ c, try_send (queue l) c = Some (queue (httpHandler l r).2).
Proof.
  unfold httpHandler. destruct (gater (l_transport l)); handler_cases; eauto.
Qed.

Lemma Accept_queue (pick : bool) (l : listener) :
  queue (Accept pick l).2 = queue l
  ∨ ∃ c, try_recv (queue l) = Some (c, queue (Accept pick l).2).
Proof. unfold Accept. handler_cases; eauto. Qed.

Lemma try_send_bounded (q q' : chan conn) c :
  queue_bounded q -> try_send q c = Some q' -> queue_bounded q'.
Proof.
  intros [Hcap Hlen] (Hlt & Hc & Hb)%try_send_Some. split; [congruence|].
  rewrite Hb, length_app. simpl. lia.
Qed.

Lemma try_recv_bounded (q q' : chan conn) c :
  queue_bounded q -> try_recv q = Some (c, q') -> queue_bounded q'.
Proof.
  intros [Hcap Hlen] (Hc & Hb)%try_recv_Some. split; [congruence|].
  rewrite Hb in Hlen. simpl in Hlen. lia.
Qed.

Lemma reachable_queue_bounded (l : listener) : reachable l -> queue_bounded (queue l).
Proof.
  induction 1 as [addr t st srv l Hnew | l t srv r _ IH | l pick _ IH | l _ IH].
  - unfold newListener in Hnew. destruct (toWebtransportMultiaddr addr); [|done].
    injection Hnew as <-. split; simpl; lia.
  - match goal with |- queue_bounded (queue (httpHandler ?l0 r).2) =>
      destruct (httpHandler_queue l0 r) as [Heq | [c Hsend]] end.
    + by rewrite Heq.
    + by eapply try_send_bounded.
  - destruct (Accept_queue pick l) as [Heq | [c Hrecv]].
    + by rewrite Heq.
    + by eapply try_recv_bounded.
  - exact IH.
Qed.

(** A connection that was sent into the queue is its newest element, and
    carries the reservation the resource manager opened. *)
Lemma httpHandler_queue_send (l : listener) (r : Request) (c : conn) :
  In (EvQueueSend c) (httpHandler l r).1 ->
  (∃ remote_,
     rcmgr_OpenConnection (l_transport l) network.DirInbound false remote_
     = Ok (conn_scope c))
  ∧ buf (queue (httpHandler l r).2) = buf (queue l) ++ [c].
Proof.
  unfold httpHandler. destruct (gater (l_transport l)) as [g|]; handler_cases;
    intros Hin; destruct_or!; simplify_eq; simpl; (split; [by eauto|]).
  all: match goal with Hs : try_send _ _ = Some _ |- _ =>
         by apply try_send_Some in Hs as (_ & _ & ?) end.
Qed.

(** C2.  Every run of [httpHandler] opens at most one reservation.  When it
    opened one, exactly one of two things happens to it, on every exit
    (upgrade failure, handshake failure, rejection by the secured gater,
    [SetPeer] failure, full queue, success): the handler calls [Done] on it
    once, or the handler sends the connection that holds it into the accept
    queue, never both and never neither.  When no reservation was opened
    neither happens.  Every [Done] is called on a reservation that
    [OpenConnection] returned, and a connection sent into the queue holds such
    a reservation and is the newest element of the queue. *)
Theorem httpHandler_releases_reservation_once (l : listener) (r : Request) :
  let evs := (httpHandler l r).1 in
  let l' := (httpHandler l r).2 in
  (count is_open evs <= 1)%nat
  ∧ (count is_open evs = 1%nat ->
       (count is_done evs + count is_queue_send evs = 1)%nat)
  ∧ (count is_open evs = 0%nat ->
       count is_done evs = 0%nat ∧ count is_queue_send evs = 0%nat)
  ∧ (∀ id, In (EvDone id) evs ->
       ∃ remote_ scope,
         rcmgr_OpenConnection (l_transport l) network.DirInbound false remote_ = Ok scope
         ∧ scope_id scope = id)
  ∧ (∀ c, In (EvQueueSend c) evs ->
       (∃ remote_,
         rcmgr_OpenConnection (l_transport l) network.DirInbound false remote_
         = Ok (conn_scope c))
       ∧ buf (queue l') = buf (queue l) ++ [c]).
Proof.
  intros evs l'. split_and!; [| | | |apply httpHandler_queue_send].
  all: subst evs l'; unfold httpHandler;
    destruct (gater (l_transport l)) as [g|]; handler_cases;
    cbv [count]; simpl; try lia; try (intros; lia); try done.
  all: intros ? Hin; destruct_or!; simplify_eq; by eauto.
Qed.

(** C5.  The accept queue is built with capacity 16 and, whatever handler
    runs, [Accept] calls and [Close] calls a listener goes through, it never
    holds more than 16 connections.  A handler run against a full queue
    returns with the queue, and the whole listener, unchanged, and sends
    nothing into the queue.  Whenever such a run passes every step before the
    queue (the selector, the address translation, the gater's two checks,
    [OpenConnection], [Upgrade], the handshake and [SetPeer]), its last three
    steps are registering the connection built from that session, handshake
    result and reservation, closing that session with error code 1 and
    calling [Done] on that reservation: the session is closed once, [Done] is
    called once, on the one reservation the run opened.  Against a queue with
    room the same run sends that connection into the queue instead, and
    neither closes the session nor calls [Done]. *)
Theorem accept_queue_bounded_and_drops_when_full :
  queueLen = 16%nat
  ∧ (∀ l, reachable l ->
     cap (queue l) = queueLen ∧ (length (buf (queue l)) <= queueLen)%nat)
  ∧ (∀ l r, (cap (queue l) <= length (buf (queue l)))%nat ->
       let evs := (httpHandler l r).1 in
       (httpHandler l r).2 = l
       ∧ count is_queue_send evs = 0%nat
       ∧ ∀ c, In (EvAddConn c) evs ->
           ∃ pre, evs = pre ++ [EvAddConn c;
                                EvCloseWithError (sess_id (conn_session c)) 1 "";
                                EvDone (scope_id (conn_scope c))])
  ∧ (∀ l r remote_ connScope sess sconn,
       bad_type_selector r = false ->
       stringToWebtransportMultiaddr (RemoteAddr r) = Ok remote_ ->
       (∀ g, gater (l_transport l) = Some g ->
          InterceptAccept g {| local := multiaddr l; remote := remote_ |} = true) ->
       rcmgr_OpenConnection (l_transport l) network.DirInbound false remote_
       = Ok connScope ->
       Upgrade (server l) r = Ok sess ->
       handshake l sess = Ok sconn ->
       (∀ g, gater (l_transport l) = Some g ->
          InterceptSecured g network.DirInbound (RemotePeer (ConnSecurity sconn)) sconn
          = true) ->
       scope_SetPeer connScope (RemotePeer (ConnSecurity sconn)) = None ->
       let c := newConn sess sconn connScope in
       ∃ pre,
         count is_open pre = 1%nat
         ∧ count is_close_session pre = 0%nat
         ∧ count is_done pre = 0%nat
         ∧ count is_queue_send pre = 0%nat
         ∧ ((cap (queue l) <= length (buf (queue l)))%nat ->
              httpHandler l r
              = (pre ++ [EvAddConn c;
                         EvCloseWithError (sess_id sess) 1 "";
                         EvDone (scope_id connScope)], l))
         ∧ ((length (buf (queue l)) < cap (queue l))%nat ->
              httpHandler l r
              = (pre ++ [EvAddConn c; EvQueueSend c],
                 set_queue l (mkChan (cap (queue l)) (buf (queue l) ++ [c]))))).
Proof.
  split_and!; [done|exact reachable_queue_bounded| |].
  - intros l r Hfull. unfold httpHandler.
    destruct (gater (l_transport l)) as [g|]; handler_cases;
      cbv [count]; simpl; split_and!; try done.
    all: try match goal with Hs : try_send _ _ = Some _ |- _ =>
           by rewrite try_send_full in Hs by done end.
    all: intros ? Hin; destruct_or!; simplify_eq.
    all: first [by eexists [_; _; _; _; _; _] | by eexists [_; _; _; _]].
  - intros l r remote_ connScope sess sconn Hsel Hrem Hacc Hopen Hup Hhs Hsec Hsp c.
    unfold httpHandler. rewrite Hsel, Hrem.
    destruct (gater (l_transport l)) as [g|] eqn:Hg.
    + rewrite (Hacc g eq_refl). simpl. rewrite Hopen, Hup, Hhs, (Hsec g eq_refl).
      simpl. rewrite Hsp.
      exists [EvInterceptAccept {| local := multiaddr l; remote := remote_ |};
              EvOpenConnection remote_; EvUpgrade; EvHandshake;
              EvInterceptSecured (RemotePeer (ConnSecurity sconn));
              EvSetPeer (scope_id connScope) (RemotePeer (ConnSecurity sconn))].
      split_and!; try done.
      * intros Hfull. by rewrite try_send_full.
      * intros Hroom. unfold try_send.
        by destruct (Nat.ltb_spec (length (buf (queue l))) (cap (queue l))); [|lia].
    + simpl. rewrite Hopen, Hup, Hhs. simpl. rewrite Hsp.
      exists [EvOpenConnection remote_; EvUpgrade; EvHandshake;
              EvSetPeer (scope_id connScope) (RemotePeer (ConnSecurity sconn))].
      split_and!; try done.
      * intros Hfull. by rewrite try_send_full.
      * intros Hroom. unfold try_send.
        by destruct (Nat.ltb_spec (length (buf (queue l))) (cap (queue l))); [|lia].
Qed.

(** C8 (amended).  [Accept] returns the closed error only if the listener's
    context has been cancelled.  With the context cancelled and the queue
    empty it returns the closed error; with the context cancelled and a
    connection queued it returns the closed error or the oldest queued
    connection, as the runtime picks; with the context not cancelled and the
    queue empty it waits.  With the context not cancelled, successive calls
    return the queued connections oldest first, and the handler adds a
    connection behind the ones already queued. *)
Theorem Accept_closed_or_fifo (pick : bool) (l : listener) :
  ((Accept pick l).1 = Returns None (Some errClosed) -> ctx_done l = true)
  ∧ (ctx_done l = true -> buf (queue l) = [] ->
       Accept pick l = (Returns None (Some errClosed), l))
  ∧ (ctx_done l = true -> ∀ c rest, buf (queue l) = c :: rest ->
       Accept true l = (Returns None (Some errClosed), l)
       ∧ Accept false l = (Returns (Some c) None, set_queue l (mkChan (cap (queue l)) rest)))
  ∧ (ctx_done l = false -> buf (queue l) = [] -> Accept pick l = (Blocks, l))
  ∧ (ctx_done l = false -> ∀ picks, length picks = length (buf (queue l)) ->
       (accept_all picks l).1 = map (fun c => Returns (Some c) None) (buf (queue l))
       ∧ buf (queue (accept_all picks l).2) = [])
  ∧ (∀ r c, In (EvQueueSend c) (httpHandler l r).1 ->
       buf (queue (httpHandler l r).2) = buf (queue l) ++ [c]).
Proof.
  split_and!.
  - unfold Accept, try_recv. by handler_cases.
  - intros Hd Hb. unfold Accept, try_recv. by rewrite Hd, Hb.
  - intros Hd c rest Hb. unfold Accept, try_recv. by rewrite Hd, Hb.
  - intros Hd Hb. unfold Accept, try_recv. by rewrite Hd, Hb.
  - intros Hd picks. destruct l as [t st srv d m [n q]]. simpl in *. subst d.
    revert picks. induction q as [|c q IH]; intros [|pick' picks] Hlen; try done.
    simpl in Hlen. specialize (IH picks ltac:(lia)).
    cbn [accept_all Accept try_recv buf cap ctx_done queue set_queue] in *.
    destruct (accept_all picks _) as [more l'']. simpl in *.
    destruct IH as [-> ->]. done.
  - intros r c Hin. by apply httpHandler_queue_send.
Qed.

(** C9 (amended).  A request with the right sub-protocol selector whose remote
    address does not translate is answered with the bad-request status, the
    same status as a request with a missing or wrong selector, and that is all
    the handler does: no gating, no reservation, no upgrade, no handshake, and
    the listener is unchanged. *)
Theorem httpHandler_untranslatable_remote_is_bad_request (l : listener) (r : Request) err :
  bad_type_selector r = false ->
  stringToWebtransportMultiaddr (RemoteAddr r) = Err err ->
  httpHandler l r = ([EvWriteHeader StatusBadRequest], l)
  ∧ ∀ r', bad_type_selector r' = true -> (httpHandler l r').1 = (httpHandler l r).1.
Proof.
  intros Hsel Htr. unfold httpHandler. rewrite Hsel, Htr. split; [done|].
  by intros r' ->.
Qed.


(** ** More on the handler, [handshake], [Accept] and [Close] *)

(** X1.  Every run of [httpHandler] ends in exactly one of three ways: it
    answers with an HTTP status, it closes the upgraded session with an error
    code, or it sends the connection into the accept queue. *)
Theorem httpHandler_one_ending (l : listener) (r : Request) :
  let evs := (httpHandler l r).1 in
  (count is_header evs + count is_close_session evs + count is_queue_send evs = 1)%nat.
Proof.
  unfold httpHandler. destruct (gater (l_transport l)) as [g|]; handler_cases;
    cbv [count]; simpl; lia.
Qed.

(** X2.  What the status of the answer tells.  The handler only answers 400,
    403, 503 or 500, and a run that answers leaves the listener as it was.
    After 400, 403 or 503 no reservation was opened; 403 is only answered when
    a gater is installed, and 500 only after a reservation was opened, which
    the run then released.  A run that does not answer has opened a
    reservation and upgraded the session. *)
Theorem httpHandler_status_meaning (l : listener) (r : Request) :
  let evs := (httpHandler l r).1 in
  match response_status evs with
  | Some status =>
      (httpHandler l r).2 = l
      ∧ count is_close_session evs = 0%nat
      ∧ ((status = StatusBadRequest ∧ evs = [EvWriteHeader StatusBadRequest])
         ∨ (status = StatusForbidden ∧ is_Some (gater (l_transport l))
            ∧ count is_open evs = 0%nat)
         ∨ (status = StatusServiceUnavailable ∧ count is_open evs = 0%nat)
         ∨ (status = 500 ∧ count is_open evs = 1%nat ∧ count is_done evs = 1%nat))
  | None => count is_open evs = 1%nat ∧ In EvUpgrade evs ∧ In EvHandshake evs
  end.
Proof.
  unfold httpHandler. destruct (gater (l_transport l)) as [g|]; handler_cases;
    cbv [count]; simpl; split_and?; try done; try tauto; eauto 10.
Qed.

(** X3.  [handshake] succeeds only when all five steps did, and then the
    connection carries the translations of the session's two addresses and the
    peer Noise authenticated; Noise was given the certificate hashes exactly
    when the TLS configuration is not static.  When it fails, the error it
    returns is, or wraps, the error of the step that failed. *)
Theorem handshake_result (l : listener) (sess : Session) :
  match handshake l sess with
  | Ok sconn =>
      toWebtransportMultiaddr (sess_LocalAddr sess) = Ok (local (ConnMultiaddrs sconn))
      ∧ toWebtransportMultiaddr (sess_RemoteAddr sess) = Ok (remote (ConnMultiaddrs sconn))
      ∧ ∃ str n,
          sess_AcceptStream sess = Ok str
          ∧ noise_WithSessionOptions (l_transport l)
              (if isStaticTLSConf l then []
               else certManager_SerializedCertHashes (l_transport l)) = Ok n
          ∧ SecureInbound n str "" = Ok (ConnSecurity sconn)
  | Err e =>
      ∃ cause, errors_Is e cause
        ∧ (toWebtransportMultiaddr (sess_LocalAddr sess) = Err cause
           ∨ toWebtransportMultiaddr (sess_RemoteAddr sess) = Err cause
           ∨ sess_AcceptStream sess = Err cause
           ∨ noise_WithSessionOptions (l_transport l)
               (if isStaticTLSConf l then []
                else certManager_SerializedCertHashes (l_transport l)) = Err cause
           ∨ ∃ str n,
               sess_AcceptStream sess = Ok str
               ∧ noise_WithSessionOptions (l_transport l)
                   (if isStaticTLSConf l then []
                    else certManager_SerializedCertHashes (l_transport l)) = Ok n
               ∧ SecureInbound n str "" = Err cause)
  end.
Proof.
  unfold handshake.
  destruct (toWebtransportMultiaddr (sess_LocalAddr sess)) as [lo|e1] eqn:E1.
  2:{ exists e1. split; [|by left]. eapply Is_below; [done|constructor]. }
  destruct (toWebtransportMultiaddr (sess_RemoteAddr sess)) as [re|e2] eqn:E2.
  2:{ exists e2. split; [|by right; left]. eapply Is_below; [done|constructor]. }
  destruct (sess_AcceptStream sess) as [str|e3] eqn:E3.
  2:{ exists e3. split; [constructor|by right; right; left]. }
  assert ((if negb (isStaticTLSConf l)
           then certManager_SerializedCertHashes (l_transport l) else [])
          = (if isStaticTLSConf l then []
             else certManager_SerializedCertHashes (l_transport l))) as ->
    by by destruct (isStaticTLSConf l).
  destruct (noise_WithSessionOptions _ _) as [n|e4] eqn:E4.
  2:{ exists e4. split; [|by right; right; right; left].
      eapply Is_below; [done|constructor]. }
  destruct (SecureInbound n str "") as [c|e5] eqn:E5.
  - simpl. split_and!; [done|done|]. by exists str, n.
  - exists e5. split; [constructor|]. do 4 right. by exists str, n.
Qed.

(** The queue after a handler run is the queue before it, followed by what
    the run sent. *)
Lemma httpHandler_queued (l : listener) (r : Request) :
  buf (queue (httpHandler l r).2) = buf (queue l) ++ queued (httpHandler l r).1.
Proof.
  unfold httpHandler. destruct (gater (l_transport l)) as [g|]; handler_cases;
    rewrite ?app_nil_r; try done.
  all: match goal with Hs : try_send _ _ = Some _ |- _ =>
         by apply try_send_Some in Hs as (_ & _ & ?) end.
Qed.

Lemma Accept_accepted (pick : bool) (l : listener) :
  buf (queue l) = accepted (Accept pick l).1 ++ buf (queue (Accept pick l).2).
Proof.
  unfold Accept, try_recv. destruct (ctx_done l), (buf (queue l)) eqn:E; simpl;
    try done; destruct pick; simpl; done.
Qed.

(** X4.  Over any sequence of handler runs, [Accept] calls and [Close] calls,
    no connection is lost, duplicated or overtaken: the connections queued at
    the start followed by the connections sent into the queue are, in order,
    the connections [Accept] returned followed by the connections still
    queued. *)
Theorem run_keeps_connections_in_order (ops : list Op) (l : listener) :
  let '(s, a, l') := run ops l in
  buf (queue l) ++ s = a ++ buf (queue l').
Proof.
  revert l. induction ops as [|op ops IH]; intros l; simpl.
  - by rewrite app_nil_r.
  - destruct op as [t srv r|pick|].
    + match goal with |- context [httpHandler ?l0 r] =>
        pose proof (httpHandler_queued l0 r) as Hq;
        destruct (httpHandler l0 r) as [evs l1] end.
      specialize (IH l1). destruct (run ops l1) as [[s a] l']. simpl in *.
      by rewrite app_assoc, <- Hq.
    + pose proof (Accept_accepted pick l) as Ha.
      destruct (Accept pick l) as [res l1].
      specialize (IH l1). destruct (run ops l1) as [[s a] l']. simpl in *.
      by rewrite Ha, <- !app_assoc, IH.
    + specialize (IH (Close l)). by destruct (run ops (Close l)) as [[s a] l'].
Qed.

Lemma httpHandler_ctx_done (l : listener) (r : Request) :
  ctx_done (httpHandler l r).2 = ctx_done l.
Proof.
  unfold httpHandler. destruct (gater (l_transport l)) as [g|]; by handler_cases.
Qed.

Lemma Accept_ctx_done (pick : bool) (l : listener) :
  ctx_done (Accept pick l).2 = ctx_done l.
Proof. unfold Accept. by handler_cases. Qed.

Lemma run_ctx_done (ops : list Op) (l : listener) :
  ctx_done l = true -> ctx_done (run ops l).2 = true.
Proof.
  revert l. induction ops as [|op ops IH]; intros l Hd; [done|]. simpl.
  destruct op as [t srv r|pick|].
  - match goal with |- context [httpHandler ?l0 r] =>
      pose proof (httpHandler_ctx_done l0 r) as Hc;
      destruct (httpHandler l0 r) as [evs l1] end.
    simpl in Hc. specialize (IH l1 ltac:(congruence)).
    by destruct (run ops l1) as [[s a] l'].
  - pose proof (Accept_ctx_done pick l) as Hc. destruct (Accept pick l) as [res l1].
    simpl in Hc. specialize (IH l1 ltac:(congruence)).
    by destruct (run ops l1) as [[s a] l'].
  - by apply IH.
Qed.

(** X5.  [Close] is for good: whatever handler runs, [Accept] calls and
    further [Close] calls follow it, the context stays cancelled, and a call
    of [Accept] never waits; it returns the closed error or a connection that
    was still queued, and the closed error whenever the queue is empty. *)
Theorem Accept_after_Close_never_waits (ops : list Op) (pick : bool) (l : listener) :
  let l' := (run ops (Close l)).2 in
  ctx_done l' = true
  ∧ (Accept pick l').1 ≠ Blocks
  ∧ (buf (queue l') = [] -> Accept pick l' = (Returns None (Some errClosed), l')).
Proof.
  intros l'. assert (ctx_done l' = true) as Hd by by apply run_ctx_done.
  split_and!; [done| |].
  - unfold Accept. rewrite Hd. by repeat case_match.
  - intros Hb. unfold Accept, try_recv. by rewrite Hd, Hb.
Qed.

End ListenerProperties.

(** ** The listener on concrete inputs *)

Section ListenerRuns.
Import libp2pwebtransport ListenerInputs.

(** C2 on two runs of a request that passes every check: against a full
    queue the handler calls [Done] once and sends nothing; with room in the
    queue it sends the connection and does not call [Done]. *)
Lemma httpHandler_releases_reservation_once_witness :
  let full := (httpHandler (listener_with 16 false) request_ok).1 in
  let room := (httpHandler (listener_with 2 false) request_ok).1 in
  (count is_open full = 1%nat ∧ count is_done full = 1%nat
   ∧ count is_queue_send full = 0%nat)
  ∧ (count is_open room = 1%nat ∧ count is_done room = 0%nat
     ∧ count is_queue_send room = 1%nat).
Proof.
  pose proof (httpHandler_releases_reservation_once (listener_with 16 false) request_ok)
    as (_ & Hfull & _).
  pose proof (httpHandler_releases_reservation_once (listener_with 2 false) request_ok)
    as (_ & Hroom & _).
  assert (count is_open (httpHandler (listener_with 16 false) request_ok).1 = 1%nat)
    as Hopen by (vm_compute; reflexivity).
  assert (count is_queue_send (httpHandler (listener_with 16 false) request_ok).1 = 0%nat)
    as Hsend by (vm_compute; reflexivity).
  assert (count is_open (httpHandler (listener_with 2 false) request_ok).1 = 1%nat)
    as Hopen' by (vm_compute; reflexivity).
  assert (count is_done (httpHandler (listener_with 2 false) request_ok).1 = 0%nat)
    as Hdone' by (vm_compute; reflexivity).
  specialize (Hfull Hopen). specialize (Hroom Hopen').
  simpl. split_and!; [exact Hopen | lia | exact Hsend | exact Hopen' | exact Hdone' | lia].
Defined.

(** C5 on a request that passes every check.  Against a full queue the
    handler returns with the listener as before, having registered the
    connection over session 0, closed that session with error code 1 and
    called [Done] on reservation 7, for the first time each; against a queue
    of two it appends the connection to the queue. *)
Lemma accept_queue_bounded_and_drops_when_full_witness :
  (∃ pre,
     count is_open pre = 1%nat
     ∧ count is_close_session pre = 0%nat
     ∧ count is_done pre = 0%nat
     ∧ count is_queue_send pre = 0%nat
     ∧ httpHandler (listener_with 16 false) request_ok
       = (pre ++ [EvAddConn (conn_of 0); EvCloseWithError 0 1 ""; EvDone 7],
          listener_with 16 false))
  ∧ (∃ pre,
       httpHandler (listener_with 2 false) request_ok
       = (pre ++ [EvAddConn (conn_of 0); EvQueueSend (conn_of 0)],
          set_queue (listener_with 2 false)
            (mkChan queueLen [conn_of 1; conn_of 2; conn_of 0]))).
Proof.
  pose proof accept_queue_bounded_and_drops_when_full as (_ & _ & _ & Hdrop).
  split.
  - destruct (Hdrop (listener_with 16 false) request_ok
                (Some (wt_addr Byte.x10 Byte.x01)) scope7 (session 0) sconn1)
      as (pre & Hopen & Hclose & Hdone & Hsend & Hfull & _);
      try (vm_compute; reflexivity).
    { intros g [= <-]. reflexivity. }
    { intros g [= <-]. reflexivity. }
    exists pre. split_and!; [exact Hopen|exact Hclose|exact Hdone|exact Hsend|].
    apply Hfull. vm_compute. lia.
  - destruct (Hdrop (listener_with 2 false) request_ok
                (Some (wt_addr Byte.x10 Byte.x01)) scope7 (session 0) sconn1)
      as (pre & _ & _ & _ & _ & _ & Hroom);
      try (vm_compute; reflexivity).
    { intros g [= <-]. reflexivity. }
    { intros g [= <-]. reflexivity. }
    exists pre. apply Hroom. vm_compute. lia.
Defined.

(** C8 (amended) on a queue of three: they come out oldest first. *)
Lemma Accept_closed_or_fifo_witness :
  (accept_all [true; false; true] (listener_with 3 false)).1
  = [Returns (Some (conn_of 1)) None; Returns (Some (conn_of 2)) None;
     Returns (Some (conn_of 3)) None].
Proof.
  pose proof (Accept_closed_or_fifo true (listener_with 3 false)) as (_ & _ & _ & _ & Hfifo & _).
  destruct (Hfifo eq_refl [true; false; true] eq_refl) as [Hres _].
  exact Hres.
Defined.

(** C8, as stated, fails: the context is cancelled, a connection is queued,
    and the runtime lets the receive proceed. *)
Lemma Accept_cancelled_may_return_connection :
  ctx_done (listener_with 1 true) = true
  ∧ (Accept false (listener_with 1 true)).1 = Returns (Some (conn_of 1)) None
  ∧ ¬ ((Accept false (listener_with 1 true)).1 = Returns None (Some errClosed)
       <-> ctx_done (listener_with 1 true) = true).
Proof.
  split_and!; [done|done|]. intros [_ Hcl]. specialize (Hcl eq_refl). discriminate Hcl.
Qed.

(** C9 (amended) on a request whose remote address does not translate. *)
Lemma httpHandler_untranslatable_remote_is_bad_request_witness :
  httpHandler (listener_with 0 false) request_untranslatable
  = ([EvWriteHeader StatusBadRequest], listener_with 0 false).
Proof.
  eapply (httpHandler_untranslatable_remote_is_bad_request
            (listener_with 0 false) request_untranslatable).
  - vm_compute. reflexivity.
  - vm_compute. reflexivity.
Defined.

(** C9, as stated, fails: the untranslatable remote address and the missing
    selector are answered with the same status. *)
Lemma httpHandler_untranslatable_remote_status_not_distinct :
  bad_type_selector request_untranslatable = false
  ∧ stringToWebtransportMultiaddr (RemoteAddr request_untranslatable)
    = Err (errors_New "invalid address")
  ∧ bad_type_selector request_no_selector = true
  ∧ response_status (httpHandler (listener_with 0 false) request_untranslatable).1
    = Some StatusBadRequest
  ∧ ¬ (response_status (httpHandler (listener_with 0 false) request_untranslatable).1
       ≠ response_status (httpHandler (listener_with 0 false) request_no_selector).1).
Proof.
  split_and!; try (vm_compute; reflexivity). intros Hne. apply Hne. vm_compute. reflexivity.
Qed.

End ListenerRuns.

(** * Properties of the AutoNAT v2 client *)

Section ClientProperties.
Import pb autonatv2.
Context `{ma.Encoding} `{Enums} `{Package}.

(** ** Address consistency *)

Lemma EqualFunc_Code (s1 s2 : list ma.Protocol) :
  slices.EqualFunc s1 s2 (fun p1 p2 => ma.Code p1 =? ma.Code p2) = true
  <-> map ma.Code s1 = map ma.Code s2.
Proof.
  unfold slices.EqualFunc. revert s2.
  induction s1 as [|p1 s1 IH]; intros [|p2 s2]; simpl; try done.
  specialize (IH s2).
  destruct (Nat.eqb_spec (length s1) (length s2)) as [Hlen|Hlen]; simpl in *.
  - rewrite andb_true_iff, IH, Z.eqb_eq. split; [intros [-> ->]|intros [= -> ->]]; done.
  - split; [done|]. intros [= _ Heq]. apply (f_equal length) in Heq.
    rewrite !length_map in Heq. done.
Qed.

Lemma areAddrsConsistent_codes (a b : ma.Multiaddr) :
  areAddrsConsistent a b = true <->
    ∃ a' b', a = Some a' ∧ b = Some b'
             ∧ map ma.Code (ma.Protocols a') = map ma.Code (ma.Protocols b').
Proof.
  destruct a as [a'|], b as [b'|]; simpl;
    try (split; [done|by intros (? & ? & ? & ? & ?)]).
  rewrite EqualFunc_Code. split; [eauto|]. by intros (? & ? & [= <-] & [= <-] & ?).
Qed.

(** C7.  [areAddrsConsistent a b] is true exactly when both addresses are
    non-nil and their protocol codes, in order, are equal.  So two non-nil
    addresses with the same codes are consistent whatever their component
    values, two with different codes are not, and a pair with a nil member
    never is. *)
Theorem areAddrsConsistent_iff_same_codes (a b : ma.Multiaddr) :
  (areAddrsConsistent a b = true <->
     ∃ a' b', a = Some a' ∧ b = Some b'
              ∧ map ma.Code (ma.Protocols a') = map ma.Code (ma.Protocols b'))
  ∧ (∀ a' b', map ma.Code (ma.Protocols a') = map ma.Code (ma.Protocols b') ->
       areAddrsConsistent (Some a') (Some b') = true)
  ∧ (∀ a' b', map ma.Code (ma.Protocols a') ≠ map ma.Code (ma.Protocols b') ->
       areAddrsConsistent (Some a') (Some b') = false)
  ∧ areAddrsConsistent None b = false
  ∧ areAddrsConsistent a None = false.
Proof.
  split_and!; [apply areAddrsConsistent_codes| | |done|by destruct a].
  - intros a' b' Heq. apply areAddrsConsistent_codes. eauto.
  - intros a' b' Hne. apply not_true_is_false.
    intros (? & ? & [= <-] & [= <-] & ?)%areAddrsConsistent_codes. done.
Qed.

(** ** The dial-back handler *)

Lemma handleDialBack_client (ac : Client) (heap : Heap) (s : DialBackStream) :
  (handleDialBack ac heap s).1.1 = ac.
Proof. unfold handleDialBack. by repeat case_match. Qed.

Lemma concurrent_dialBacks_client (ac : Client) (heap : Heap) (ss : list DialBackStream) :
  (concurrent_dialBacks ac heap ss).1 = ac.
Proof.
  unfold concurrent_dialBacks. revert ac heap.
  induction ss as [|s ss IH]; intros ac heap; [done|]. simpl.
  destruct (handleDialBack ac heap s) as [[ac' heap'] evs] eqn:E. simpl.
  rewrite IH. by rewrite <- (handleDialBack_client ac heap s), E.
Qed.

(** The channel of a call after the concurrent dial-backs: it holds the
    local address of the first stream that delivered the call's nonce, and
    nothing else. *)
Lemma concurrent_dialBacks_channel (ac : Client) (heap : Heap) (nonce : N)
    (ch : positive) (pending : list ma.Multiaddr) (ss : list DialBackStream) :
  dialBackQueues ac !! nonce = Some (Some ch) ->
  (∀ n, n ≠ nonce -> dialBackQueues ac !! n ≠ Some (Some ch)) ->
  heap !! ch = Some (mkChan 1 pending) ->
  (length pending <= 1)%nat ->
  (concurrent_dialBacks ac heap ss).2 !! ch
  = Some (mkChan 1 (take 1 (pending ++ (db_LocalMultiaddr <$> filter (fun s => delivers nonce s = true) ss)))).
Proof.
  intros Hown Hother. unfold concurrent_dialBacks.
  revert heap pending. induction ss as [|s ss IH]; intros heap pending Hch Hlen.
  - simpl. rewrite app_nil_r, Hch. f_equal. f_equal.
    by rewrite take_ge.
  - simpl. 
    pose proof (handleDialBack_client ac heap s) as Hcl.
    destruct (handleDialBack ac heap s) as [[ac' heap'] evs] eqn:Hh. simpl in Hcl. subst ac'.
    simpl.
    unfold handleDialBack in Hh.
    destruct (db_SetService s) eqn:E1.
    { rewrite filter_cons_False by (unfold delivers; by rewrite E1).
      simplify_eq. by apply IH. }
    destruct (db_ReserveMemory s) eqn:E2.
    { rewrite filter_cons_False by (unfold delivers; by rewrite E1, E2).
      simplify_eq. by apply IH. }
    destruct (db_ReadMsg s) as [msg|err] eqn:E3.
    2:{ rewrite filter_cons_False by (unfold delivers; by rewrite E1, E2, E3).
        simplify_eq. by apply IH. }
    injection Hh as <- _.
    destruct (decide (db_Nonce msg = nonce)) as [Heq|Hneq].
    + rewrite filter_cons_True
        by (unfold delivers; rewrite E1, E2, E3; by apply bool_decide_eq_true_2).
      rewrite Heq, Hown. simpl. rewrite Hch. unfold try_send. simpl.
      destruct pending as [|p [|p' pending]]; simpl in *; [| |lia].
      * erewrite IH; [|by rewrite lookup_insert_eq|simpl; lia]. done.
      * erewrite IH; [|done|simpl; lia]. done.
    + rewrite filter_cons_False
        by (unfold delivers; rewrite E1, E2, E3, bool_decide_eq_false_2; done).
      specialize (Hother _ Hneq).
      destruct (dialBackQueues ac !! db_Nonce msg) as [[l|]|] eqn:Hl; simpl;
        try by apply IH.
      assert (l ≠ ch) by congruence.
      destruct (heap !! l) as [c|] eqn:Hc; [|by apply IH].
      destruct (try_send c (db_LocalMultiaddr s)); [|by apply IH].
      apply IH; [|done]. by rewrite lookup_insert_ne.
Qed.

(** The address the dial-back [select] yields is the local address of the
    first dial-back stream that carried the nonce of the call, provided the
    runtime lets the receive proceed. *)
Lemma dialBackAddr_obtained_is_first_delivery (ac : Client) (heap : Heap) (e : Env) :
  refs_allocated ac heap ->
  dialBackAddr_obtained ac heap e
  = match select_pick e,
          filter (fun s => delivers (rand_Uint64 e) s = true) (dialBacks e) with
    | CaseChan, s :: _ => db_LocalMultiaddr s
    | _, _ => None
    end.
Proof.
  intros Hwf. unfold dialBackAddr_obtained, heap_at_select, register, await_dialBack,
    channel_of.
  set (nonce := rand_Uint64 e). set (ch := fresh (dom heap)).
  rewrite (concurrent_dialBacks_channel _ _ nonce ch []).
  - simpl. unfold try_recv. simpl.
    destruct (select_pick e); try done.
    by destruct (filter _ (dialBacks e)).
  - simpl. apply lookup_insert_eq.
  - intros n Hn. simpl. rewrite lookup_insert_ne by done. intros Hl%Hwf.
    by apply is_fresh in Hl.
  - apply lookup_insert_eq.
  - simpl. lia.
Qed.

(** C10.  [handleDialBack] leaves the client, and so the nonce-to-channel map,
    as it found it on every path: its events contain no insertion and no
    removal, and the one lookup is made between [Lock] and [Unlock].  When the
    nonce it reads has no entry, the lookup yields the nil channel, the
    non-blocking send takes its [default] branch, no channel changes, and the
    handler ends the ordinary way: it closes the stream and releases the
    memory, without a reset. *)
Theorem handleDialBack_only_reads_the_map (ac : Client) (heap : Heap) (s : DialBackStream) :
  let '(ac', heap', evs) := handleDialBack ac heap s in
  ac' = ac
  ∧ (∀ ev, In ev evs -> writes_map ev = false)
  ∧ mutex_ok false evs = true
  ∧ (∀ msg, db_SetService s = None -> db_ReserveMemory s = None ->
       db_ReadMsg s = Ok msg -> dialBackQueues ac !! db_Nonce msg = None ->
       default None (dialBackQueues ac !! db_Nonce msg) = None
       ∧ heap' = heap
       ∧ evs = [EvSetDeadline; EvReadDialBack msg; EvLock; EvMapLookup (db_Nonce msg);
                EvUnlock; EvClose; EvReleaseMemory]).
Proof.
  unfold handleDialBack.
  destruct (db_SetService s), (db_ReserveMemory s), (db_ReadMsg s) as [msg|err];
    split_and!; try done;
    try (intros ev Hin; simpl in Hin; destruct_or!; by subst).
  intros msg' _ _ ? Hnone. simplify_eq. by rewrite Hnone.
Qed.


(** ** What a call receives and sends *)

Lemma received_app (a b : list Event) : received (a ++ b) = received a ++ received b.
Proof. apply omap_app. Qed.

Lemma sent_app (a b : list Event) : sent (a ++ b) = sent a ++ sent b.
Proof. apply omap_app. Qed.

Lemma sendDialData_loop_received fuel ac e remain w :
  received (sendDialData_loop fuel ac e remain w).2 = [].
Proof.
  revert remain w. induction fuel as [|fuel IH]; intros remain w; simpl.
  - by destruct (remain >? 0).
  - destruct (remain >? 0); [|done]. simpl.
    destruct (WriteMsg e w); [done|].
    specialize (IH (remain - (if remain >? len (dialData ac)
                              then len (dialData ac) else remain)) (S w)).
    destruct (sendDialData_loop fuel ac e _ (S w)) as [r evs]. by simpl in *.
Qed.

Lemma sendDialData_received ac e req w r evs :
  sendDialData ac e req w = (r, evs) -> received evs = [].
Proof.
  unfold sendDialData. intros Heq.
  pose proof (sendDialData_loop_received
    (Z.to_nat (int_of_uint64 (NumBytes req))
     + match firstWriteError e with Some (k, _) => S k | None => 0 end)
    ac e (int_of_uint64 (NumBytes req)) w) as Hr.
  by rewrite Heq in Hr.
Qed.

(** Case analysis along the exits of the client's functions. *)
Ltac client_cases :=
  repeat (first
    [ progress simplify_eq/=
    | match goal with
      | H : context [if ?b then _ else _] |- _ => destruct b eqn:?
      | H : context [match ?x with _ => _ end] |- _ => destruct x eqn:?
      end ]).

(** The Dial Response that [exchange] hands on is the only one it has read;
    when it ends the call it has read none. *)
Lemma exchange_received ac e high low nonce x evs :
  exchange ac e high low nonce = (x, evs) ->
  match x with
  | inr resp => ∀ resp', In (Message_DialResponse resp') (received evs) <-> resp' = resp
  | inl _ => ∀ resp', ¬ In (Message_DialResponse resp') (received evs)
  end.
Proof.
  unfold exchange, GetDialResponse, GetDialDataRequest. intros Heq.
  client_cases;
    repeat match goal with
    | Hs : sendDialData _ _ _ _ = _ |- _ => apply sendDialData_received in Hs
    end;
    intros resp'; rewrite ?received_app; simpl;
    repeat match goal with Hr : received _ = [] |- _ => rewrite Hr; clear Hr end;
    simpl; try tauto; try (intros ?; destruct_or!; congruence).
  all: split; [intros ?; destruct_or!; congruence | intros ->; tauto].
Qed.


Lemma resolve_not_Diverges heap e ch high low resp :
  (resolve heap e ch high low resp).1 ≠ Diverges.
Proof.
  unfold resolve, newResults, failed. repeat case_match; simplify_eq/=; done.
Qed.

(** A call that has read a Dial Response got its stream, registered its nonce
    and ends as [resolve] says; the deferred calls have run. *)
Lemma CheckReachability_resolves ac heap e high low resp :
  In (Message_DialResponse resp)
     (received (CheckReachability ac heap e high low).2) ->
  NewStream e = None ∧ SetService e = None ∧ ReserveMemory e = None
  ∧ (CheckReachability ac heap e high low).1.1.1
    = (resolve (heap_at_select ac heap e) e (channel_of heap) high low resp).1.
Proof.
  unfold CheckReachability, heap_at_select, channel_of, register.
  destruct (NewStream e); [done|]. destruct (SetService e); [done|].
  destruct (ReserveMemory e); [done|].
  destruct (concurrent_dialBacks _ _ _) as [ac2 heap2] eqn:Hc.
  destruct (exchange ac2 e high low (rand_Uint64 e)) as [[out|resp0] evs0] eqn:Hx;
    apply exchange_received in Hx.
  - destruct out; simpl; rewrite ?received_app; simpl; rewrite ?app_nil_r;
      intros Hin; by apply Hx in Hin.
  - simpl. destruct (resolve heap2 e _ high low resp0) as [out heap'] eqn:Hr.
    assert (out ≠ Diverges) as Hnd.
    { pose proof (resolve_not_Diverges heap2 e (fresh (dom heap)) high low resp0) as Hn.
      by rewrite Hr in Hn. }
    destruct out; [| |done]; simpl; rewrite ?received_app; simpl; rewrite ?app_nil_r;
      intros ->%Hx; by rewrite Hr.
Qed.


(** C6.  For every Dial Response that [CheckReachability] reads: when the
    top-level status is [E_DIAL_REFUSED] the call returns an error that wraps
    [ErrDialRefused]; when it is any other value than [OK] the call returns the
    status error, which carries the status number (and the name the table
    gives for it); when it is [OK] and the dial status is [UNUSED] the call
    returns the invalid-dial-status error.  In all three cases the result is
    [Result{}]. *)
Theorem CheckReachability_response_status_errors ac heap e high low resp :
  DialResponse_E_DIAL_REFUSED ≠ DialResponse_OK ->
  In (Message_DialResponse resp)
     (received (CheckReachability ac heap e high low).2) ->
  let out := (CheckReachability ac heap e high low).1.1.1 in
  (pb.Status resp = DialResponse_E_DIAL_REFUSED ->
     ∃ err, out = Returned Result_zero (Some err)
            ∧ err = fmt_Errorf "dial request: %w" [verb_w ErrDialRefused]
            ∧ errors_Is err ErrDialRefused)
  ∧ (pb.Status resp ≠ DialResponse_OK -> pb.Status resp ≠ DialResponse_E_DIAL_REFUSED ->
       out = Returned Result_zero
               (Some (fmt_Errorf "dial request: status %d %s"
                        [verb_d (pb.Status resp);
                         verb_s (default "" (DialStatus_name !! pb.Status resp))])))
  ∧ (pb.Status resp = DialResponse_OK -> DialStatus resp = DialStatus_UNUSED ->
       out = Returned Result_zero
               (Some (fmt_Errorf "dial request failed: received invalid dial status 0" []))).
Proof.
  intros Hne (_ & _ & _ & ->)%CheckReachability_resolves. unfold resolve, failed.
  split_and!.
  - intros Hst. rewrite Hst.
    destruct (Z.eqb_spec DialResponse_E_DIAL_REFUSED DialResponse_OK); [done|]. simpl.
    rewrite Z.eqb_refl. eexists. split_and!; [done..|].
    eapply Is_below; [done|constructor].
  - intros Hnok Hnref.
    destruct (Z.eqb_spec (pb.Status resp) DialResponse_OK); [done|]. simpl.
    by destruct (Z.eqb_spec (pb.Status resp) DialResponse_E_DIAL_REFUSED).
  - intros -> ->. by rewrite !Z.eqb_refl.
Qed.

Lemma lookup_high_low (high low : list ma.Multiaddr) (idx : N) :
  Z.of_N idx < len high + len low ->
  ∃ addr, (high ++ low) !! N.to_nat idx = Some addr
    ∧ (if Z.of_N idx <? len high
       then high !! Z.to_nat (Z.of_N idx)
       else low !! Z.to_nat (Z.of_N idx - len high)) = Some addr.
Proof.
  unfold len. intros Hlt.
  destruct (lookup_lt_is_Some_2 (high ++ low) (N.to_nat idx)) as [addr Ha].
  { rewrite length_app. lia. }
  exists addr. split; [done|].
  destruct (Z.ltb_spec (Z.of_N idx) (Z.of_nat (length high))).
  - rewrite lookup_app_l in Ha by lia. rewrite <- Ha. f_equal. lia.
  - rewrite lookup_app_r in Ha by lia. rewrite <- Ha. f_equal. lia.
Qed.

(** The two index expressions of [newResults] stay inside their slices. *)
Lemma newResults_never_panics resp (high low : list ma.Multiaddr) dialBackAddr :
  newResults resp high low dialBackAddr ≠ Panics.
Proof.
  unfold newResults.
  destruct (Z.geb_spec (Z.of_N (AddrIdx resp)) (len high + len low)); [done|].
  destruct (lookup_high_low high low (AddrIdx resp)) as (addr & _ & ->); [lia|].
  by repeat case_match.
Qed.

(** C1 (amended).  For every Dial Response that [CheckReachability] reads with
    top-level status [OK], a dial status other than [UNUSED] and an address
    index below the number of addresses, the call returns a Result and no
    error.  The Result carries that index and the address at that index.  Its
    reachability is public exactly when the dial status is [OK] and a dial-back
    address was obtained whose protocol codes, in order, are those of that
    address; it is private when the dial status is [E_DIAL_ERROR]; in every
    other case it is unknown.  Its status is [E_DIAL_BACK_ERROR] when the dial
    status is [OK] and the reachability is not public, and the dial status of
    the response otherwise. *)
Theorem CheckReachability_classifies_in_range_response ac heap e high low resp :
  DialStatus_OK ≠ DialStatus_E_DIAL_ERROR ->
  In (Message_DialResponse resp)
     (received (CheckReachability ac heap e high low).2) ->
  pb.Status resp = DialResponse_OK ->
  DialStatus resp ≠ DialStatus_UNUSED ->
  Z.of_N (AddrIdx resp) < len high + len low ->
  ∃ r addr,
    (CheckReachability ac heap e high low).1.1.1 = Returned r None
    ∧ (high ++ low) !! N.to_nat (AddrIdx resp) = Some addr
    ∧ Idx r = Z.of_N (AddrIdx resp)
    ∧ Addr r = addr
    ∧ (Reachability r = network.ReachabilityPublic <->
         DialStatus resp = DialStatus_OK
         ∧ ∃ dba a, dialBackAddr_obtained ac heap e = Some dba ∧ addr = Some a
                    ∧ map ma.Code (ma.Protocols dba) = map ma.Code (ma.Protocols a))
    ∧ (DialStatus resp = DialStatus_E_DIAL_ERROR -> Reachability r = network.ReachabilityPrivate)
    ∧ (Reachability r ≠ network.ReachabilityPublic -> DialStatus resp ≠ DialStatus_E_DIAL_ERROR ->
         Reachability r = network.ReachabilityUnknown)
    ∧ (DialStatus resp = DialStatus_OK -> Reachability r ≠ network.ReachabilityPublic ->
         Status r = DialStatus_E_DIAL_BACK_ERROR)
    ∧ (DialStatus resp ≠ DialStatus_OK ∨ Reachability r = network.ReachabilityPublic ->
         Status r = DialStatus resp).
Proof.
  intros Hne (_ & _ & _ & ->)%CheckReachability_resolves Hok Hused Hrange.
  destruct (lookup_high_low high low (AddrIdx resp) Hrange) as (addr & Hlk & Hsel).
  unfold resolve, newResults, dialBackAddr_obtained.
  rewrite Hok, Z.eqb_refl. simpl.
  destruct (Z.eqb_spec (DialStatus resp) DialStatus_UNUSED); [done|].
  destruct (Z.ltb_spec (Z.of_N (AddrIdx resp)) (len high + len low)); [|lia].
  rewrite andb_true_r.
  pose proof (areAddrsConsistent_codes
    (await_dialBack (heap_at_select ac heap e) (channel_of heap) (select_pick e)).1
    addr) as Hcons.
  destruct (Z.eqb_spec (DialStatus resp) DialStatus_OK) as [Hds|Hds]; simpl.
  - destruct (await_dialBack _ _ _) as [dba heap'] eqn:Hw. simpl in *.
    destruct (Z.geb_spec (Z.of_N (AddrIdx resp)) (len high + len low)); [lia|].
    rewrite Hsel.
    destruct (areAddrsConsistent dba addr) eqn:Hc; simpl;
      eexists _, addr; split_and!; simpl; try done; try congruence.
    + split; [intros _; split; [done|by apply Hcons]|done].
    + split; [done|]. intros [_ Hex]. apply Hcons in Hex. done.
    + intros [?|?]; done.
  - destruct (Z.geb_spec (Z.of_N (AddrIdx resp)) (len high + len low)); [lia|].
    rewrite Hsel.
    destruct (Z.eqb_spec (DialStatus resp) DialStatus_E_DIAL_ERROR); simpl;
      eexists _, addr; split_and!; simpl; try done; try congruence.
    all: split; [done|tauto].
Qed.


(** ** Termination of the dial-data loop *)

Lemma sendDialData_loop_terminates fuel ac e remain w :
  dialData ac ≠ [] -> (Z.to_nat remain <= fuel)%nat ->
  (sendDialData_loop fuel ac e remain w).1 ≠ None.
Proof.
  intros Hne. assert (0 < len (dialData ac)) as Hlen.
  { unfold len. destruct (dialData ac); [done|simpl; lia]. }
  revert remain w. induction fuel as [|fuel IH]; intros remain w Hfuel; simpl.
  - destruct (Z.gtb_spec remain 0); [lia|done].
  - destruct (Z.gtb_spec remain 0); [|done]. simpl.
    destruct (WriteMsg e w); [done|].
    set (end_ := if remain >? len (dialData ac) then len (dialData ac) else remain).
    assert (0 < end_) by (unfold end_; destruct (Z.gtb_spec remain (len (dialData ac))); lia).
    specialize (IH (remain - end_) (S w) ltac:(lia)).
    by destruct (sendDialData_loop fuel ac e (remain - end_) (S w)).
Qed.

(** With nothing to send per message and no failing write ahead, the loop of
    the source never ends: no amount of fuel lets it finish. *)
Lemma sendDialData_loop_runs_forever fuel ac e remain w :
  dialData ac = [] -> 0 < remain -> (∀ i, (w <= i)%nat -> WriteMsg e i = None) ->
  (sendDialData_loop fuel ac e remain w).1 = None.
Proof.
  intros Hnil Hpos. revert w. induction fuel as [|fuel IH]; intros w Hw; simpl.
  - by destruct (Z.gtb_spec remain 0); [|lia].
  - destruct (Z.gtb_spec remain 0); [|lia]. simpl.
    rewrite Hw by lia. rewrite Hnil. unfold len. simpl.
    change (Z.of_nat 0) with 0.
    destruct (Z.gtb_spec remain 0); [|lia]. rewrite Z.sub_0_r.
    specialize (IH (S w) ltac:(intros; apply Hw; lia)).
    by destruct (sendDialData_loop fuel ac e remain (S w)).
Qed.

Lemma sendDialData_loop_None_empty fuel ac e remain w :
  dialData ac = [] ->
  (match firstWriteError e with Some (k, _) => S k - w | None => 0 end <= fuel)%nat ->
  (sendDialData_loop fuel ac e remain w).1 = None ->
  0 < remain ∧ ∀ i, (w <= i)%nat -> WriteMsg e i = None.
Proof.
  intros Hnil. revert w. induction fuel as [|fuel IH]; intros w Hfuel; simpl.
  - destruct (Z.gtb_spec remain 0); [|done]. intros _. split; [done|].
    intros i Hi. unfold WriteMsg. destruct (firstWriteError e) as [[k err]|]; [|done].
    destruct (Nat.eqb_spec i k); [lia|done].
  - destruct (Z.gtb_spec remain 0); [|done]. simpl.
    destruct (WriteMsg e w) eqn:Hw; [done|].
    rewrite Hnil. unfold len. simpl.
    change (Z.of_nat 0) with 0.
    destruct (Z.gtb_spec remain 0); [|lia]. rewrite Z.sub_0_r.
    specialize (IH (S w)).
    destruct (sendDialData_loop fuel ac e remain (S w)) as [r evs]. simpl in *.
    intros ->. destruct IH as [_ IH]; [|done|].
    { destruct (firstWriteError e) as [[k err]|]; lia. }
    split; [done|]. intros i Hi.
    destruct (decide (i = w)) as [->|]; [done|]. apply IH. lia.
Qed.

(** The fuel [sendDialData] takes is enough whenever the loop of the source
    ends: it is used up only in the case of the lemma before the last. *)
Lemma sendDialData_None ac e req w evs :
  sendDialData ac e req w = (None, evs) ->
  dialData ac = [] ∧ 0 < int_of_uint64 (NumBytes req)
  ∧ ∀ i, (w <= i)%nat -> WriteMsg e i = None.
Proof.
  unfold sendDialData. intros Heq.
  destruct (decide (dialData ac = [])) as [Hnil|Hne].
  - split; [done|].
    eapply (sendDialData_loop_None_empty _ ac e _ w Hnil); [|by rewrite Heq].
    destruct (firstWriteError e) as [[k err]|]; lia.
  - exfalso. eapply (sendDialData_loop_terminates _ ac e _ w Hne); [|by rewrite Heq]. lia.
Qed.

Lemma exchange_terminates ac e high low nonce :
  dialData ac ≠ [] -> (exchange ac e high low nonce).1 ≠ inl Diverges.
Proof.
  intros Hne. unfold exchange, failed.
  repeat case_match; simplify_eq/=; try done.
  by match goal with Hs : sendDialData _ _ _ _ = (None, _) |- _ =>
    apply sendDialData_None in Hs as [? _] end.
Qed.

(** Membership in an event list, one segment at a time. *)
Ltac split_In H :=
  repeat match type of H with
  | In _ (_ ++ _) => apply in_app_or in H as [H|H]
  | In _ (_ :: _) => destruct H as [H|H]
  | In _ [] => destruct H
  | _ ∨ _ => destruct H as [H|H]
  | False => destruct H
  end.

Lemma sendDialData_loop_writes fuel ac e remain w ev :
  In ev (sendDialData_loop fuel ac e remain w).2 -> ∃ m, ev = EvWriteMsg m.
Proof.
  revert remain w. induction fuel as [|fuel IH]; intros remain w; simpl.
  - by destruct (remain >? 0).
  - destruct (remain >? 0); [|done]. simpl.
    destruct (WriteMsg e w); simpl; [intros [<-|[]]; eauto|].
    specialize (IH (remain - (if remain >? len (dialData ac)
                              then len (dialData ac) else remain)) (S w)).
    destruct (sendDialData_loop fuel ac e _ (S w)) as [r evs]. simpl in *.
    intros [<-|Hin]; eauto.
Qed.

(** [exchange] only writes, reads and resets the stream. *)
Lemma exchange_no_insert ac e high low nonce n :
  ¬ In (EvMapInsert n) (exchange ac e high low nonce).2.
Proof.
  unfold exchange, sendDialData. intros Hin.
  repeat case_match; simplify_eq/=; split_In Hin; try done.
  all: match goal with Hs : sendDialData_loop ?f ?a ?b ?c ?d = (_, ?evs) |- _ =>
         pose proof (sendDialData_loop_writes f a b c d (EvMapInsert n)) as Hw;
         rewrite Hs in Hw; by destruct (Hw Hin) end.
Qed.

(** C4.  A call of [CheckReachability] that has put its nonce into the map
    and then returns, with a result, with an error or by a panic, leaves the
    map without an entry for that nonce, and leaves every other entry as it
    was; the removal is among its events.  A client whose [dialData] is not
    empty, as [NewClient] builds it, always returns. *)
Theorem CheckReachability_unregisters_nonce ac heap e high low :
  let '(out, ac', heap', evs) := CheckReachability ac heap e high low in
  (dialData ac ≠ [] -> out ≠ Diverges)
  ∧ ∀ nonce, In (EvMapInsert nonce) evs -> out ≠ Diverges ->
      dialBackQueues ac' !! nonce = None
      ∧ dialBackQueues ac' = delete nonce (dialBackQueues ac)
      ∧ In (EvMapDelete nonce) evs.
Proof.
  unfold CheckReachability, register, failed.
  destruct (NewStream e); [by split; [|intros ? []]|].
  destruct (SetService e); [by split; [|intros ? [|[]]]|].
  destruct (ReserveMemory e); [by split; [|intros ? [|[]]]|].
  pose proof (concurrent_dialBacks_client
    (set_dialBackQueues ac (<[rand_Uint64 e:=Some (fresh (dom heap))]> (dialBackQueues ac)))
    (<[fresh (dom heap):=make 1]> heap) (dialBacks e)) as Hac.
  destruct (concurrent_dialBacks _ _ _) as [ac2 heap2]. simpl in Hac. subst ac2.
  set (ac1 := set_dialBackQueues ac _).
  pose proof (exchange_terminates ac1 e high low (rand_Uint64 e)) as Hterm.
  pose proof (exchange_no_insert ac1 e high low (rand_Uint64 e)) as Hni.
  destruct (exchange ac1 e high low (rand_Uint64 e)) as [[out|resp] evs0] eqn:Hx;
    simpl in Hterm, Hni.
  - destruct out; (split; [naive_solver|]); intros nonce Hin Hnd; try done.
    all: assert (nonce = rand_Uint64 e) as ->
      by (split_In Hin; try done; try congruence; by apply Hni in Hin).
    all: simpl; split_and!;
      [ apply lookup_delete_eq
      | by rewrite delete_insert_eq
      | do 4 right; apply in_or_app; right; simpl; tauto ].
  - destruct (resolve heap2 e _ high low resp) as [out heap'] eqn:Hr.
    pose proof (resolve_not_Diverges heap2 e (fresh (dom heap)) high low resp) as Hn.
    rewrite Hr in Hn. simpl in Hn.
    destruct out; (split; [naive_solver|]); intros nonce Hin Hnd; try done.
    all: assert (nonce = rand_Uint64 e) as ->
      by (split_In Hin; try done; try congruence; by apply Hni in Hin).
    all: simpl; split_and!;
      [ apply lookup_delete_eq
      | by rewrite delete_insert_eq
      | do 4 right; apply in_or_app; right; simpl; tauto ].
Qed.


(** ** Dial Data Requests the client refuses *)

Lemma newDialRequest_is_request high low nonce m :
  newDialRequest high low nonce = Some m -> ∃ dr, m = Message_DialRequest dr.
Proof. unfold newDialRequest. case_match; [|done]. intros [= <-]. eauto. Qed.

Lemma exchange_invalid_request ac e high low nonce req :
  len high <= Z.of_N (ddr_AddrIdx req) ∨ (maxHandshakeSizeBytes < NumBytes req)%N ->
  let x := (exchange ac e high low nonce).1 in
  let evs := (exchange ac e high low nonce).2 in
  (In (Message_DialDataRequest req) (received evs) ->
     (∃ err, x = inl (failed err))
     ∧ ∃ pre post, evs = pre ++ EvReadMsg (Message_DialDataRequest req) :: post
                   ∧ sent post = [])
  ∧ (head (received evs) = Some (Message_DialDataRequest req) ->
       ∃ dr, sent evs = [Message_DialRequest dr]).
Proof.
  intros Hbad. unfold exchange, GetDialResponse, GetDialDataRequest.
  repeat case_match; simplify_eq/=;
    repeat match goal with
    | Hs : sendDialData _ _ _ _ = _ |- _ => apply sendDialData_received in Hs
    | Hn : newDialRequest _ _ _ = Some _ |- _ =>
        apply newDialRequest_is_request in Hn as [? ->]
    end;
    rewrite ?received_app; simpl;
    repeat match goal with Hr : received _ = [] |- _ => rewrite Hr end;
    simpl; (split; [intros Hin; split_In Hin; simplify_eq|intros ?; simplify_eq]).
  all: repeat match goal with
       | Hc : (_ >=? _) = false |- _ => rewrite Z.geb_leb in Hc; apply Z.leb_gt in Hc
       | Hc : (_ <? _)%N = false |- _ => apply N.ltb_ge in Hc
       end; try lia.
  all: try by eauto.
  all: (split; [by eauto|]).
  all: first [ by eexists [_], [EvReset]
             | by eexists (_ :: _ :: _), [EvReset] ].
Qed.

(** C3.  Let a Dial Data Request ask for an address index at or beyond the
    number of high-priority addresses, or for more bytes than
    [maxHandshakeSizeBytes].  If [CheckReachability] reads it, the call returns
    an error with [Result{}] and writes nothing after reading it.  If it is
    the first message the call reads, which is where a Dial Data Request may
    come, the only message the call ever writes is its Dial Request: no Dial
    Data Response is written. *)
Theorem CheckReachability_rejects_invalid_DialDataRequest ac heap e high low req :
  len high <= Z.of_N (ddr_AddrIdx req) ∨ (maxHandshakeSizeBytes < NumBytes req)%N ->
  let out := (CheckReachability ac heap e high low).1.1.1 in
  let evs := (CheckReachability ac heap e high low).2 in
  (In (Message_DialDataRequest req) (received evs) ->
     (∃ err, out = Returned Result_zero (Some err))
     ∧ ∃ pre post, evs = pre ++ EvReadMsg (Message_DialDataRequest req) :: post
                   ∧ sent post = [])
  ∧ (head (received evs) = Some (Message_DialDataRequest req) ->
       (∃ dr, sent evs = [Message_DialRequest dr])
       ∧ ∀ m, In m (sent evs) -> is_DialDataResponse m = false).
Proof.
  intros Hbad.
  unfold CheckReachability, register.
  destruct (NewStream e); [done|]. destruct (SetService e); [done|].
  destruct (ReserveMemory e); [done|].
  destruct (concurrent_dialBacks _ _ _) as [ac2 heap2].
  pose proof (exchange_invalid_request ac2 e high low (rand_Uint64 e) req Hbad)
    as [Hin Hhd].
  pose proof (exchange_received ac2 e high low (rand_Uint64 e)) as Hrecv.
  assert (∀ tail, sent tail = [] -> received tail = [] ->
    (In (Message_DialDataRequest req)
        (received ([EvSetDeadline; EvLock; EvMapInsert (rand_Uint64 e); EvUnlock]
                   ++ (exchange ac2 e high low (rand_Uint64 e)).2 ++ tail)) ->
       (∃ err, (exchange ac2 e high low (rand_Uint64 e)).1 = inl (failed err))
       ∧ ∃ pre post,
           [EvSetDeadline; EvLock; EvMapInsert (rand_Uint64 e); EvUnlock]
           ++ (exchange ac2 e high low (rand_Uint64 e)).2 ++ tail
           = pre ++ EvReadMsg (Message_DialDataRequest req) :: post
           ∧ sent post = [])
    ∧ (head (received ([EvSetDeadline; EvLock; EvMapInsert (rand_Uint64 e); EvUnlock]
                       ++ (exchange ac2 e high low (rand_Uint64 e)).2 ++ tail))
       = Some (Message_DialDataRequest req) ->
         (∃ dr, sent ([EvSetDeadline; EvLock; EvMapInsert (rand_Uint64 e); EvUnlock]
                      ++ (exchange ac2 e high low (rand_Uint64 e)).2 ++ tail)
                = [Message_DialRequest dr])
         ∧ ∀ m, In m (sent ([EvSetDeadline; EvLock; EvMapInsert (rand_Uint64 e); EvUnlock]
                            ++ (exchange ac2 e high low (rand_Uint64 e)).2 ++ tail)) ->
                is_DialDataResponse m = false)) as Hgen.
  { intros tail Hst Hrt.
    rewrite !received_app, !sent_app, Hst, Hrt, !app_nil_r. simpl. split.
    - intros [Herr (pre & post & -> & Hpost)]%Hin. split; [done|].
      exists ([EvSetDeadline; EvLock; EvMapInsert (rand_Uint64 e); EvUnlock] ++ pre),
             (post ++ tail).
      split; [by rewrite <- !app_assoc|]. by rewrite sent_app, Hpost, Hst.
    - intros [dr ->]%Hhd. split; [eauto|]. by intros m [<-|[]]. }
  destruct (exchange ac2 e high low (rand_Uint64 e)) as [[out|resp] evs0] eqn:Hx;
    simpl in Hgen.
  - destruct out; simpl.
    + destruct (Hgen [EvLock; EvMapDelete (rand_Uint64 e); EvUnlock; EvClose;
                      EvReleaseMemory] eq_refl eq_refl) as [Ha Hb].
      split; [|done]. intros [[err' [= -> ->]] Hsplit]%Ha. eauto.
    + destruct (Hgen [EvLock; EvMapDelete (rand_Uint64 e); EvUnlock; EvClose;
                      EvReleaseMemory] eq_refl eq_refl) as [Ha Hb].
      split; [|done]. by intros [[err' [=]] Hsplit]%Ha.
    + destruct (Hgen [] eq_refl eq_refl) as [Ha Hb]. rewrite !app_nil_r in *.
      split; [|done]. by intros [[err' [=]] Hsplit]%Ha.
  - destruct (resolve heap2 e _ high low resp) as [out heap'] eqn:Hr.
    pose proof (resolve_not_Diverges heap2 e (fresh (dom heap)) high low resp) as Hn.
    rewrite Hr in Hn. simpl in Hn.
    destruct (Hgen [EvLock; EvMapDelete (rand_Uint64 e); EvUnlock; EvClose;
                    EvReleaseMemory] eq_refl eq_refl) as [Ha Hb].
    destruct out; [| |done]; simpl; (split; [|done]);
      by intros [[err' [=]] Hsplit]%Ha.
Qed.


(** ** More on the client's functions *)

(** X6.  [areAddrsConsistent] is symmetric and transitive, and an address is
    consistent with itself exactly when it is not nil. *)
Theorem areAddrsConsistent_equivalence (a b c : ma.Multiaddr) :
  areAddrsConsistent a b = areAddrsConsistent b a
  ∧ (areAddrsConsistent a b = true -> areAddrsConsistent b c = true ->
       areAddrsConsistent a c = true)
  ∧ (areAddrsConsistent a a = true <-> a ≠ None).
Proof.
  split_and!.
  - apply eq_true_iff_eq. rewrite !areAddrsConsistent_codes.
    split; intros (x & y & -> & -> & Heq); eauto 6.
  - intros (x & y & -> & -> & Hxy)%areAddrsConsistent_codes
           (y' & z & [= <-] & -> & Hyz)%areAddrsConsistent_codes.
    apply areAddrsConsistent_codes. exists x, z. split_and!; [done..|congruence].
  - rewrite areAddrsConsistent_codes. split.
    + by intros (x & _ & -> & _).
    + destruct a as [x|]; [|done]. intros _. by exists x, x.
Qed.

(** X7.  [newDialRequest] panics exactly when one of the addresses is nil.
    Otherwise the request carries the nonce and one encoding per address, the
    high-priority addresses first: the encoding at an index is that of the
    address at the same index of the two lists put end to end, which is the
    address [newResults] reports for that index. *)
Theorem newDialRequest_addresses (high low : list ma.Multiaddr) (nonce : N) :
  (newDialRequest high low nonce = None <-> In None (high ++ low))
  ∧ ∀ m, newDialRequest high low nonce = Some m ->
      ∃ dr, m = Message_DialRequest dr
        ∧ Nonce dr = nonce
        ∧ length (Addrs dr) = (length high + length low)%nat
        ∧ (∀ i a, (high ++ low) !! i = Some a -> Addrs dr !! i = ma.Bytes <$> a)
        ∧ ∀ resp dba r, newResults resp high low dba = Returned r None ->
            Addrs dr !! Z.to_nat (Idx r) = ma.Bytes <$> Addr r.
Proof.
  unfold newDialRequest. split.
  - destruct (mapM (fmap ma.Bytes) (high ++ low)) as [k|] eqn:Hm.
    + split; [done|]. intros Hin. apply mapM_Some_1 in Hm.
      apply list_elem_of_In, list_elem_of_lookup in Hin as [i Hi].
      by destruct (Forall2_lookup_l _ _ _ _ _ Hm Hi) as (y & _ & Hy).
    + split; [|done]. intros _.
      destruct (decide (Forall (is_Some ∘ fmap ma.Bytes) (high ++ low))) as [Hall|Hex].
      * apply mapM_is_Some_2 in Hall as [k Hk]. congruence.
      * apply not_Forall_Exists in Hex; [|intros x; apply _].
        apply Exists_exists in Hex as ([a|] & Hin & Hnot).
        -- destruct Hnot. by eexists.
        -- by apply list_elem_of_In.
  - intros m Hm. destruct (mapM (fmap ma.Bytes) (high ++ low)) as [k|] eqn:Hk; [|done].
    injection Hm as <-. eexists. split; [done|]. simpl.
    apply mapM_Some_1 in Hk.
    assert (∀ i a, (high ++ low) !! i = Some a -> k !! i = ma.Bytes <$> a) as Hidx.
    { intros i a Hi. destruct (Forall2_lookup_l _ _ _ _ _ Hk Hi) as (y & -> & Hy).
      done. }
    split_and!; [done| |done|].
    + apply Forall2_length in Hk. by rewrite <- Hk, length_app.
    + intros resp dba r Hr. unfold newResults in Hr.
      destruct (Z.geb_spec (Z.of_N (AddrIdx resp)) (len high + len low)); [done|].
      destruct (lookup_high_low high low (AddrIdx resp)) as (addr & Hlk & Hsel); [lia|].
      rewrite Hsel in Hr. repeat case_match; simplify_eq/=.
      all: replace (Z.to_nat (Z.of_N (AddrIdx resp))) with (N.to_nat (AddrIdx resp))
        by lia; by apply Hidx.
Qed.

Lemma sendDialData_loop_chunks fuel ac e remain w :
  dialData ac ≠ [] -> (∀ i, (w <= i)%nat -> WriteMsg e i = None) ->
  (Z.to_nat remain <= fuel)%nat ->
  sendDialData_loop fuel ac e remain w
  = (Some None, write_chunk <$> dial_data_chunks (dialData ac) remain).
Proof.
  intros Hne. assert (0 < len (dialData ac)) as Hlen.
  { unfold len. destruct (dialData ac); [done|simpl; lia]. }
  revert remain w. induction fuel as [|fuel IH]; intros remain w Hw Hfuel;
    unfold dial_data_chunks; simpl.
  - destruct (Z.gtb_spec remain 0); [lia|]. simpl.
    by destruct (Z.leb_spec remain 0); [|lia].
  - destruct (Z.gtb_spec remain 0); simpl.
    2:{ by destruct (Z.leb_spec remain 0); [|lia]. }
    destruct (Z.leb_spec remain 0); [lia|].
    rewrite Hw by lia.
    destruct (Z.gtb_spec remain (len (dialData ac))) as [Hgt|Hle].
    + rewrite IH; [|intros; apply Hw; lia|lia].
      rewrite take_ge by (unfold len in *; lia).
      unfold dial_data_chunks. destruct (Z.leb_spec (remain - len (dialData ac)) 0); [lia|].
      replace (remain / len (dialData ac))
        with ((remain - len (dialData ac)) / len (dialData ac) + 1).
      2:{ rewrite <- Z.div_add by lia. f_equal. lia. }
      replace (remain mod len (dialData ac))
        with ((remain - len (dialData ac)) mod len (dialData ac)).
      2:{ rewrite <- (Z.mod_add _ 1) by lia. f_equal. lia. }
      rewrite Z2Nat.inj_add, Nat.add_comm by (try apply Z.div_pos; lia).
      done.
    + rewrite IH; [|intros; apply Hw; lia|lia].
      unfold dial_data_chunks at 1. rewrite Z.sub_diag. simpl.
      destruct (Z.eq_dec remain (len (dialData ac))) as [->|Hlt].
      * rewrite Z.div_same, Z.mod_same by lia. simpl.
        by rewrite take_ge by (unfold len; lia).
      * rewrite Z.div_small, Z.mod_small by lia. simpl.
        by destruct (Z.eqb_spec remain 0); [lia|].
Qed.

Lemma total_bytes_app (a b : list (list byte)) :
  total_bytes (a ++ b) = total_bytes a + total_bytes b.
Proof. unfold total_bytes. induction a as [|c a IH]; simpl; lia. Qed.

Lemma total_bytes_replicate (n : nat) (c : list byte) :
  total_bytes (replicate n c) = Z.of_nat n * len c.
Proof. unfold total_bytes. induction n as [|n IH]; simpl; lia. Qed.

Lemma dial_data_chunks_total (data : list byte) (n : Z) :
  data ≠ [] -> total_bytes (dial_data_chunks data n) = Z.max 0 n.
Proof.
  intros Hne. assert (0 < len data) as Hlen.
  { unfold len. destruct data; [done|simpl; lia]. }
  unfold dial_data_chunks. destruct (Z.leb_spec n 0); [unfold total_bytes; simpl; lia|].
  rewrite total_bytes_app, total_bytes_replicate.
  pose proof (Z.div_mod n (len data) ltac:(lia)) as Hdm.
  pose proof (Z.mod_pos_bound n (len data) Hlen) as Hb.
  assert (0 <= n / len data) by (apply Z.div_pos; lia).
  rewrite Z2Nat.id by done.
  destruct (Z.eqb_spec (n mod len data) 0) as [Hz|Hnz]; unfold total_bytes; simpl.
  - lia.
  - unfold len at 3. rewrite length_take. unfold len in *. lia.
Qed.

(** X8.  When the buffer is not empty and no write fails, [sendDialData]
    returns nil after writing the requested number of bytes as Dial Data
    Responses and nothing else: the whole buffer as often as it fits, then one
    message with the rest.  So no message is empty or longer than the buffer,
    and the bytes add up to the number requested (to none when the conversion
    to [int] makes that number negative). *)
Theorem sendDialData_sends_requested_bytes ac e req w :
  dialData ac ≠ [] -> (∀ i, (w <= i)%nat -> WriteMsg e i = None) ->
  let n := int_of_uint64 (NumBytes req) in
  sendDialData ac e req w
  = (Some None, write_chunk <$> dial_data_chunks (dialData ac) n)
  ∧ total_bytes (dial_data_chunks (dialData ac) n) = Z.max 0 n
  ∧ Forall (fun c => 0 < len c <= len (dialData ac))
           (dial_data_chunks (dialData ac) n).
Proof.
  intros Hne Hw n. split_and!.
  - unfold sendDialData. apply sendDialData_loop_chunks; [done|done|lia].
  - by apply dial_data_chunks_total.
  - assert (0 < len (dialData ac)) as Hlen.
    { unfold len. destruct (dialData ac); [done|simpl; lia]. }
    unfold dial_data_chunks. destruct (n <=? 0); [constructor|].
    apply Forall_app. split.
    + apply Forall_replicate. lia.
    + pose proof (Z.mod_pos_bound n (len (dialData ac)) Hlen) as Hb.
      destruct (Z.eqb_spec (n mod len (dialData ac)) 0); constructor; [|constructor].
      unfold len at 1 3. rewrite length_take. unfold len in *. lia.
Qed.

Lemma sendDialData_loop_failure fuel ac e remain w err evs :
  sendDialData_loop fuel ac e remain w = (Some (Some err), evs) ->
  ∃ k, firstWriteError e = Some (k, err) ∧ (w <= k)%nat
       ∧ length evs = (k - w + 1)%nat
       ∧ ∀ i, (w <= i < k)%nat -> WriteMsg e i = None.
Proof.
  revert remain w evs. induction fuel as [|fuel IH]; intros remain w evs; simpl.
  - by destruct (remain >? 0).
  - destruct (remain >? 0); [|done]. simpl.
    destruct (WriteMsg e w) as [err'|] eqn:Hw.
    + intros [= <- <-]. unfold WriteMsg in Hw.
      destruct (firstWriteError e) as [[k err0]|]; [|done].
      destruct (Nat.eqb_spec w k) as [Heq|]; [|done]. injection Hw as ->.
      exists k. split_and!; [done|lia|simpl; lia|lia].
    + destruct (sendDialData_loop fuel ac e _ (S w)) as [r evs'] eqn:Hl.
      intros [= -> <-]. apply IH in Hl as (k & Hk & Hle & Hlen & Hnone).
      exists k. split_and!; [done|lia|simpl; lia|].
      intros i Hi. destruct (decide (i = w)) as [->|]; [done|]. apply Hnone. lia.
Qed.

Lemma sendDialData_loop_sent fuel ac e remain w :
  let evs := (sendDialData_loop fuel ac e remain w).2 in
  sent evs = Message_DialDataResponse <$> (mkDialDataResponse <$> data_sent evs)
  ∧ received evs = [].
Proof.
  revert remain w. induction fuel as [|fuel IH]; intros remain w; simpl.
  - by destruct (remain >? 0).
  - destruct (remain >? 0); [|done]. simpl.
    destruct (WriteMsg e w); [done|].
    specialize (IH (remain - (if remain >? len (dialData ac)
                              then len (dialData ac) else remain)) (S w)).
    destruct (sendDialData_loop fuel ac e _ (S w)) as [r evs]. simpl in *.
    destruct IH as [-> ->]. done.
Qed.

(** X9.  When [sendDialData] returns an error, it is the error of the first
    write that failed; every write before that one succeeded, none was
    attempted after it, and all it wrote are Dial Data Responses. *)
Theorem sendDialData_stops_at_first_failure ac e req w err evs :
  sendDialData ac e req w = (Some (Some err), evs) ->
  ∃ k, firstWriteError e = Some (k, err) ∧ (w <= k)%nat
       ∧ length evs = (k - w + 1)%nat
       ∧ (∀ i, (w <= i < k)%nat -> WriteMsg e i = None)
       ∧ sent evs = Message_DialDataResponse <$> (mkDialDataResponse <$> data_sent evs).
Proof.
  unfold sendDialData. intros Hs.
  destruct (sendDialData_loop_failure _ _ _ _ _ _ _ Hs) as (k & ? & ? & ? & ?).
  exists k. split_and!; try done.
  match type of Hs with sendDialData_loop ?f _ _ ?r _ = _ =>
    pose proof (sendDialData_loop_sent f ac e r w) as [Hsent _] end.
  by rewrite Hs in Hsent.
Qed.

(** ** The course of a call of [CheckReachability] *)

(** A call that got its stream, in terms of its two halves. *)
Lemma CheckReachability_stream ac heap e high low :
  NewStream e = None -> SetService e = None -> ReserveMemory e = None ->
  let nonce := rand_Uint64 e in
  let ac1 := set_dialBackQueues ac (<[nonce := Some (channel_of heap)]> (dialBackQueues ac)) in
  let x := exchange ac1 e high low nonce in
  let fin := match x.1 with
             | inl out => (out, heap_at_select ac heap e)
             | inr resp => resolve (heap_at_select ac heap e) e (channel_of heap) high low resp
             end in
  CheckReachability ac heap e high low
  = match fin.1 with
    | Diverges => (Diverges, ac1, fin.2, registered nonce ++ x.2)
    | out => (out, set_dialBackQueues ac (delete nonce (dialBackQueues ac)), fin.2,
              registered nonce ++ x.2 ++ deferred nonce)
    end.
Proof.
  intros Hn Hs Hr. unfold CheckReachability, heap_at_select, channel_of, register.
  rewrite Hn, Hs, Hr.
  pose proof (concurrent_dialBacks_client
    (set_dialBackQueues ac (<[rand_Uint64 e:=Some (fresh (dom heap))]> (dialBackQueues ac)))
    (<[fresh (dom heap):=make 1]> heap) (dialBacks e)) as Hac.
  destruct (concurrent_dialBacks _ _ _) as [ac2 heap2]. simpl in Hac. subst ac2. simpl.
  destruct (exchange _ e high low (rand_Uint64 e)) as [[out|resp] evs0]; simpl.
  - destruct out; simpl; try done; by rewrite delete_insert_eq.
  - destruct (resolve heap2 e _ high low resp) as [out heap'] eqn:Hres. simpl.
    destruct out; simpl; try done; by rewrite delete_insert_eq.
Qed.

(** [exchange] ends the call only by a panic, by never returning, or with an
    error and [Result{}]. *)
Lemma exchange_inl ac e high low nonce out evs :
  exchange ac e high low nonce = (inl out, evs) ->
  out = Panics ∨ out = Diverges ∨ ∃ err, out = Returned Result_zero (Some err).
Proof.
  unfold exchange, failed. intros Hx. client_cases; eauto.
Qed.

Lemma resolve_success heap e ch high low resp r :
  (resolve heap e ch high low resp).1 = Returned r None ->
  pb.Status resp = DialResponse_OK
  ∧ DialStatus resp ≠ DialStatus_UNUSED
  ∧ Z.of_N (AddrIdx resp) < len high + len low
  ∧ Idx r = Z.of_N (AddrIdx resp)
  ∧ (high ++ low) !! N.to_nat (AddrIdx resp) = Some (Addr r).
Proof.
  unfold resolve, failed.
  destruct (Z.eqb_spec (pb.Status resp) DialResponse_OK) as [Hok|]; simpl.
  2:{ by case_match. }
  destruct (Z.eqb_spec (DialStatus resp) DialStatus_UNUSED) as [|Hused]; [done|].
  match goal with |- context [let '(_, _) := ?x in _] => destruct x as [dba heap'] end.
  simpl. unfold newResults.
  destruct (Z.geb_spec (Z.of_N (AddrIdx resp)) (len high + len low)); [done|].
  destruct (lookup_high_low high low (AddrIdx resp)) as (addr & Hlk & ->); [lia|].
  intros Hr. split_and!; [done|done|lia| |]; repeat case_match; by simplify_eq/=.
Qed.

(** X10.  [CheckReachability] returns a Result without an error only after it
    got its stream and read a Dial Response with top-level status [OK], a dial
    status other than [UNUSED] and an index inside the two address lists; the
    Result then carries that index and the address at it. *)
Theorem CheckReachability_success_needs_valid_response ac heap e high low r :
  (CheckReachability ac heap e high low).1.1.1 = Returned r None ->
  NewStream e = None ∧ SetService e = None ∧ ReserveMemory e = None
  ∧ ∃ resp,
      In (Message_DialResponse resp) (received (CheckReachability ac heap e high low).2)
      ∧ pb.Status resp = DialResponse_OK
      ∧ DialStatus resp ≠ DialStatus_UNUSED
      ∧ Z.of_N (AddrIdx resp) < len high + len low
      ∧ Idx r = Z.of_N (AddrIdx resp)
      ∧ (high ++ low) !! N.to_nat (AddrIdx resp) = Some (Addr r).
Proof.
  destruct (NewStream e) eqn:Hn; [by unfold CheckReachability; rewrite Hn|].
  destruct (SetService e) eqn:Hs; [by unfold CheckReachability; rewrite Hn, Hs|].
  destruct (ReserveMemory e) eqn:Hr; [by unfold CheckReachability; rewrite Hn, Hs, Hr|].
  rewrite CheckReachability_stream by done.
  destruct (exchange _ e high low (rand_Uint64 e)) as [[out|resp] evs0] eqn:Hx; simpl.
  - apply exchange_inl in Hx as [->|[->|[err ->]]]; done.
  - pose proof (exchange_received _ _ _ _ _ _ _ Hx) as Hrecv. simpl in Hrecv.
    destruct (resolve _ e _ high low resp) as [out heap'] eqn:Hres. simpl.
    pose proof (resolve_not_Diverges (heap_at_select ac heap e) e (channel_of heap)
                  high low resp) as Hnd.
    pose proof (resolve_success (heap_at_select ac heap e) e (channel_of heap)
                  high low resp r) as Hsucc.
    rewrite Hres in Hnd, Hsucc. simpl in *.
    destruct out as [r0 err| |]; [| |done]; simpl; intros Heq; [|done].
    injection Heq as -> ->. specialize (Hsucc eq_refl).
    split_and!; try done. exists resp. split; [|done].
    unfold registered, deferred. rewrite !received_app. simpl. rewrite app_nil_r.
    by apply Hrecv.
Qed.

(** X11.  A Dial Response with top-level status [OK] and a dial status other
    than [UNUSED] whose index is outside the two address lists ends the call
    with the out-of-range error, which names the index and the last valid
    index; the call does not wait for a dial-back, so no channel changes
    after the concurrent dial-backs. *)
Theorem CheckReachability_rejects_out_of_range_index ac heap e high low resp :
  In (Message_DialResponse resp)
     (received (CheckReachability ac heap e high low).2) ->
  pb.Status resp = DialResponse_OK ->
  DialStatus resp ≠ DialStatus_UNUSED ->
  len high + len low <= Z.of_N (AddrIdx resp) ->
  (CheckReachability ac heap e high low).1.1.1
  = Returned Result_zero
      (Some (fmt_Errorf "addrIdx out of range: %d 0-%d"
               [verb_d (Z.of_N (AddrIdx resp)); verb_d (len high + len low - 1)]))
  ∧ (CheckReachability ac heap e high low).1.2 = heap_at_select ac heap e.
Proof.
  intros Hin Hok Hused Hrange.
  pose proof Hin as (Hn & Hs & Hr & Hout)%CheckReachability_resolves.
  rewrite CheckReachability_stream in Hin |- * by done.
  destruct (exchange _ e high low (rand_Uint64 e)) as [[out|resp0] evs0] eqn:Hx; simpl in *.
  - pose proof (exchange_received _ _ _ _ _ _ _ Hx) as Hrecv. simpl in Hrecv.
    destruct out; simpl in Hin; unfold registered, deferred in Hin;
      rewrite ?received_app in Hin; simpl in Hin; rewrite ?app_nil_r in Hin;
      by apply Hrecv in Hin.
  - pose proof (exchange_received _ _ _ _ _ _ _ Hx) as Hrecv. simpl in Hrecv.
    assert (resp0 = resp) as ->.
    { symmetry. apply Hrecv.
      destruct (resolve _ e _ high low resp0).1; simpl in Hin;
        unfold registered, deferred in Hin;
        rewrite ?received_app in Hin; simpl in Hin; by rewrite ?app_nil_r in Hin. }
    assert (resolve (heap_at_select ac heap e) e (channel_of heap) high low resp
            = (Returned Result_zero
                 (Some (fmt_Errorf "addrIdx out of range: %d 0-%d"
                          [verb_d (Z.of_N (AddrIdx resp));
                           verb_d (len high + len low - 1)])),
               heap_at_select ac heap e)) as ->.
    { unfold resolve, newResults. rewrite Hok, Z.eqb_refl. simpl.
      destruct (Z.eqb_spec (DialStatus resp) DialStatus_UNUSED); [done|].
      destruct (Z.ltb_spec (Z.of_N (AddrIdx resp)) (len high + len low)); [lia|].
      rewrite andb_false_r.
      by destruct (Z.geb_spec (Z.of_N (AddrIdx resp)) (len high + len low)); [|lia]. }
    done.
Qed.

Lemma count_app p (a b : list Event) : count p (a ++ b) = (count p a + count p b)%nat.
Proof. unfold count. by rewrite filter_app, length_app. Qed.

Lemma count_cons p (ev : Event) (evs : list Event) :
  count p (ev :: evs) = ((if p ev then 1 else 0) + count p evs)%nat.
Proof. unfold count. rewrite filter_cons. by destruct (p ev). Qed.

Lemma count_writes p (evs : list Event) :
  (∀ m, p (EvWriteMsg m) = false) ->
  (∀ ev, In ev evs -> ∃ m, ev = EvWriteMsg m) ->
  count p evs = 0%nat.
Proof.
  intros Hp. induction evs as [|ev evs IH]; intros Hall; [done|].
  destruct (Hall ev (or_introl eq_refl)) as [m ->].
  unfold count in *. rewrite filter_cons_False by (rewrite Hp; done).
  apply IH. intros ev' Hin. apply Hall. by right.
Qed.

Lemma sendDialData_writes ac e req w ev :
  In ev (sendDialData ac e req w).2 -> ∃ m, ev = EvWriteMsg m.
Proof. unfold sendDialData. apply sendDialData_loop_writes. Qed.

Lemma sendDialData_count p ac e req w r evs :
  (∀ m, p (EvWriteMsg m) = false) ->
  sendDialData ac e req w = (r, evs) -> count p evs = 0%nat.
Proof.
  intros Hp Hs. apply count_writes; [done|]. intros ev Hin.
  apply (sendDialData_writes ac e req w). by rewrite Hs.
Qed.

(** [exchange] resets the stream exactly when it ends the call with an error,
    and then it has read no Dial Response; it never closes the stream or
    releases the memory itself. *)
Lemma exchange_counts ac e high low nonce x evs :
  exchange ac e high low nonce = (x, evs) ->
  count is_close evs = 0%nat ∧ count is_release evs = 0%nat
  ∧ match x with
    | inl (Returned _ _) =>
        count is_reset evs = 1%nat ∧ count is_response_read evs = 0%nat
    | inl _ => count is_reset evs = 0%nat ∧ count is_response_read evs = 0%nat
    | inr _ => count is_reset evs = 0%nat ∧ count is_response_read evs = 1%nat
    end.
Proof.
  unfold exchange, failed, GetDialResponse, GetDialDataRequest. intros Hx.
  client_cases; rewrite ?count_cons, ?count_app, ?count_cons;
    repeat match goal with
    | Hs : sendDialData _ _ _ _ = _ |- _ =>
        rewrite (sendDialData_count is_close _ _ _ _ _ _ ltac:(done) Hs),
                (sendDialData_count is_release _ _ _ _ _ _ ltac:(done) Hs),
                (sendDialData_count is_reset _ _ _ _ _ _ ltac:(done) Hs),
                (sendDialData_count is_response_read _ _ _ _ _ _ ltac:(done) Hs);
        clear Hs
    end; done.
Qed.

(** X12.  The stream of a call.  It is closed as often as its memory is
    released, at most once, and, for a call that ends, exactly once when the
    memory was reserved and never otherwise.  A call that got its stream and
    returns has either read one Dial Response or reset the stream once, never
    both: the stream is reset on every error but the errors the Dial Response
    itself causes.  A call that panics does not reset it. *)
Theorem CheckReachability_stream_accounting ac heap e high low :
  let out := (CheckReachability ac heap e high low).1.1.1 in
  let evs := (CheckReachability ac heap e high low).2 in
  count is_close evs = count is_release evs
  ∧ (out ≠ Diverges ->
       count is_close evs
       = match NewStream e, SetService e, ReserveMemory e with
         | None, None, None => 1%nat
         | _, _, _ => 0%nat
         end)
  ∧ (NewStream e = None -> (∃ r err, out = Returned r err) ->
       (count is_reset evs + count is_response_read evs = 1)%nat)
  ∧ (out = Panics ∨ NewStream e ≠ None -> count is_reset evs = 0%nat).
Proof.
  destruct (NewStream e) eqn:Hn.
  { unfold CheckReachability. rewrite Hn. simpl. split_and!; try done;
      try by intros [|]. }
  destruct (SetService e) eqn:Hs.
  { unfold CheckReachability. rewrite Hn, Hs. simpl. split_and!; try done;
      try by intros [|]. }
  destruct (ReserveMemory e) eqn:Hr.
  { unfold CheckReachability. rewrite Hn, Hs, Hr. simpl. split_and!; try done;
      try by intros [|]. }
  rewrite CheckReachability_stream by done.
  destruct (exchange _ e high low (rand_Uint64 e)) as [[out|resp] evs0] eqn:Hx;
    apply exchange_counts in Hx as (Hc & Hrel & Hrst); simpl.
  - destruct out; simpl; unfold registered, deferred; simpl;
      rewrite ?count_cons, ?count_app, ?count_cons;
      destruct Hrst as [Hr1 Hr2]; rewrite ?Hc, ?Hrel, ?Hr1, ?Hr2;
      cbv [count]; simpl; split_and!; try done; try lia.
    all: try by intros _ (? & ? & ?).
    all: try by intros [|].
  - destruct (resolve _ e _ high low resp) as [out heap'] eqn:Hres. simpl.
    pose proof (resolve_not_Diverges (heap_at_select ac heap e) e (channel_of heap)
                  high low resp) as Hnd.
    rewrite Hres in Hnd. simpl in Hnd.
    destruct out; [| |done]; simpl; unfold registered, deferred; simpl;
      rewrite ?count_cons, ?count_app, ?count_cons;
      destruct Hrst as [Hr1 Hr2]; rewrite ?Hc, ?Hrel, ?Hr1, ?Hr2;
      cbv [count]; simpl; split_and!; try done; try lia.
Qed.

Lemma critical_sections_ok_io (a b : list Event) :
  (∀ ev, In ev a -> is_stream_io ev = true) ->
  critical_sections_ok false (a ++ b) = critical_sections_ok false b.
Proof.
  induction a as [|ev a IH]; intros Hio; [done|]. simpl.
  pose proof (Hio ev (or_introl eq_refl)) as Hev.
  rewrite IH by (intros ev' Hin; apply Hio; by right).
  by destruct ev.
Qed.

Lemma critical_sections_ok_mutex_ok (held : bool) (evs : list Event) :
  critical_sections_ok held evs = true -> mutex_ok held evs = true.
Proof.
  revert held. induction evs as [|ev evs IH]; intros held; [done|]. simpl.
  destruct ev; simpl; rewrite ?andb_true_iff; try (intros [? ?]; split; [done|]);
    try (intros [Hh ?]); eauto.
Qed.

Lemma exchange_stream_io ac e high low nonce ev :
  In ev (exchange ac e high low nonce).2 -> is_stream_io ev = true.
Proof.
  unfold exchange. intros Hin.
  repeat case_match; simplify_eq/=; split_In Hin; subst; try done.
  all: match goal with Hs : sendDialData ?a ?b ?c ?d = (_, ?evs) |- _ =>
         pose proof (sendDialData_writes a b c d ev) as Hw;
         rewrite Hs in Hw; by destruct (Hw Hin) as [? ->] end.
Qed.

(** X13.  Both functions keep to the mutex: in the events of every call of
    [CheckReachability] and of every run of [handleDialBack], [Lock] and
    [Unlock] alternate, the map is touched only between them, and nothing
    else happens between them: the mutex is never held across an operation on
    the stream. *)
Theorem mutex_only_around_the_map ac heap e high low s :
  critical_sections_ok false (CheckReachability ac heap e high low).2 = true
  ∧ mutex_ok false (CheckReachability ac heap e high low).2 = true
  ∧ critical_sections_ok false (handleDialBack ac heap s).2 = true.
Proof.
  assert (critical_sections_ok false (CheckReachability ac heap e high low).2 = true)
    as Hcs.
  { destruct (NewStream e) eqn:Hn; [by unfold CheckReachability; rewrite Hn|].
    destruct (SetService e) eqn:Hs; [by unfold CheckReachability; rewrite Hn, Hs|].
    destruct (ReserveMemory e) eqn:Hr;
      [by unfold CheckReachability; rewrite Hn, Hs, Hr|].
    rewrite CheckReachability_stream by done.
    match goal with |- context [exchange ?a e high low ?n] =>
      pose proof (exchange_stream_io a e high low n) as Hio;
      destruct (exchange a e high low n) as [x evs0] end.
    simpl in *.
    match goal with |- context [match ?o with Diverges => _ | _ => _ end] =>
      destruct o end; simpl; try (by rewrite critical_sections_ok_io).
    by rewrite <- (app_nil_r evs0), critical_sections_ok_io. }
  split_and!; [done|by apply critical_sections_ok_mutex_ok|].
  unfold handleDialBack. by repeat case_match.
Qed.

Lemma data_sent_app (a b : list Event) : data_sent (a ++ b) = data_sent a ++ data_sent b.
Proof. apply omap_app. Qed.

(** What a call reads and writes is what its [exchange] reads and writes, and
    nothing when it did not get its stream. *)
Lemma CheckReachability_io ac heap e high low :
  let nonce := rand_Uint64 e in
  let ac1 := set_dialBackQueues ac (<[nonce := Some (channel_of heap)]> (dialBackQueues ac)) in
  let x := exchange ac1 e high low nonce in
  let evs := (CheckReachability ac heap e high low).2 in
  (NewStream e = None ∧ SetService e = None ∧ ReserveMemory e = None
   ∧ received evs = received x.2 ∧ sent evs = sent x.2 ∧ data_sent evs = data_sent x.2
   ∧ (CheckReachability ac heap e high low).1.1.1
     = match x.1 with
       | inl out => out
       | inr resp =>
           (resolve (heap_at_select ac heap e) e (channel_of heap) high low resp).1
       end)
  ∨ (received evs = [] ∧ sent evs = [] ∧ data_sent evs = []).
Proof.
  destruct (NewStream e) eqn:Hn; [right; by unfold CheckReachability; rewrite Hn|].
  destruct (SetService e) eqn:Hs; [right; by unfold CheckReachability; rewrite Hn, Hs|].
  destruct (ReserveMemory e) eqn:Hr;
    [right; by unfold CheckReachability; rewrite Hn, Hs, Hr|].
  left. simpl. rewrite CheckReachability_stream by done.
  destruct (exchange _ e high low (rand_Uint64 e)) as [[out|resp] evs0]; simpl.
  - destruct out; simpl; unfold registered, deferred;
      rewrite ?received_app, ?sent_app, ?data_sent_app; simpl; by rewrite ?app_nil_r.
  - destruct (resolve _ e _ high low resp) as [out heap'] eqn:Hres. simpl.
    pose proof (resolve_not_Diverges (heap_at_select ac heap e) e (channel_of heap)
                  high low resp) as Hnd.
    rewrite Hres in Hnd. simpl in Hnd.
    destruct out; [| |done]; simpl; unfold registered, deferred;
      rewrite ?received_app, ?sent_app, ?data_sent_app; simpl; by rewrite ?app_nil_r.
Qed.

Lemma sendDialData_events ac e req w :
  let evs := (sendDialData ac e req w).2 in
  sent evs = Message_DialDataResponse <$> (mkDialDataResponse <$> data_sent evs)
  ∧ received evs = [].
Proof. unfold sendDialData. apply sendDialData_loop_sent. Qed.

(** Comparisons of the source, as propositions. *)
Ltac comparisons :=
  repeat match goal with
  | Hc : (_ >=? _) = true |- _ => apply Z.geb_le in Hc
  | Hc : (_ >=? _) = false |- _ => rewrite Z.geb_leb in Hc; apply Z.leb_gt in Hc
  | Hc : (_ <? _)%N = true |- _ => apply N.ltb_lt in Hc
  | Hc : (_ <? _)%N = false |- _ => apply N.ltb_ge in Hc
  end.

(** What [exchange] does with the first message it reads, and with the second. *)
Lemma exchange_messages ac e high low nonce :
  let x := (exchange ac e high low nonce).1 in
  let evs := (exchange ac e high low nonce).2 in
  (length (received evs) <= 2)%nat
  ∧ (sent evs = []
     ∨ ∃ dr, newDialRequest high low nonce = Some (Message_DialRequest dr)
         ∧ sent evs = Message_DialRequest dr
                      :: (Message_DialDataResponse <$> (mkDialDataResponse <$> data_sent evs)))
  ∧ (∀ resp, x = inr resp -> last (received evs) = Some (Message_DialResponse resp))
  ∧ (data_sent evs ≠ [] ->
       ∃ req, head (received evs) = Some (Message_DialDataRequest req)
         ∧ Z.of_N (ddr_AddrIdx req) < len high
         ∧ (NumBytes req <= maxHandshakeSizeBytes)%N)
  ∧ (∀ m, head (received evs) = Some m ->
       GetDialResponse m = None -> GetDialDataRequest m = None ->
       x = inl (failed (fmt_Errorf "invalid msg type: %T" [verb_T (Msg_type m)]))
       ∧ received evs = [m]
       ∧ data_sent evs = [])
  ∧ (∀ m1 m2, received evs = [m1; m2] -> GetDialResponse m2 = None ->
       x = inl (failed (fmt_Errorf "invalid response type: %T" [verb_T (Msg_type m2)])))
  ∧ (∀ req, head (received evs) = Some (Message_DialDataRequest req) ->
       Z.of_N (ddr_AddrIdx req) < len high ->
       (NumBytes req <= maxHandshakeSizeBytes)%N ->
       data_sent evs = data_sent (sendDialData ac e req 1).2).
Proof.
  unfold exchange, GetDialResponse, GetDialDataRequest.
  repeat case_match; simplify_eq/=;
    repeat match goal with
    | Hn : newDialRequest _ _ _ = Some _ |- _ =>
        apply newDialRequest_is_request in Hn as [? ->]
    | Hs : sendDialData ?a ?b ?c ?d = (_, ?l) |- _ =>
        let Hq := fresh "Hq" in
        pose proof (sendDialData_events a b c d) as Hq;
        rewrite Hs in Hq; simpl in Hq; destruct Hq as [? ?];
        assert (data_sent l = data_sent (sendDialData a b c d).2) by (by rewrite Hs);
        clear Hs
    end;
    rewrite ?received_app, ?sent_app, ?data_sent_app; simpl;
    repeat match goal with
    | Hr : received _ = [] |- _ => rewrite Hr
    | Hr : sent _ = _ |- _ => rewrite Hr
    end; rewrite ?app_nil_r; simpl; comparisons.
  all: split_and!; try (simpl; lia); try done; eauto.
  all: intros; simplify_eq/=; try done; try lia; eauto.
Qed.

(** X14.  The messages of a call.  It reads at most two messages, and a Dial
    Response it reads is the last of them.  When it writes at all, the first
    message is the Dial Request that [newDialRequest] builds with the nonce of
    the call, and every later one is a Dial Data Response; dial data is only
    written after a Dial Data Request for a high-priority index and no more
    than [maxHandshakeSizeBytes] bytes was read first. *)
Theorem CheckReachability_messages ac heap e high low :
  let evs := (CheckReachability ac heap e high low).2 in
  (length (received evs) <= 2)%nat
  ∧ (∀ resp, In (Message_DialResponse resp) (received evs) ->
       last (received evs) = Some (Message_DialResponse resp))
  ∧ (sent evs = []
     ∨ ∃ dr, newDialRequest high low (rand_Uint64 e) = Some (Message_DialRequest dr)
         ∧ Nonce dr = rand_Uint64 e
         ∧ sent evs = Message_DialRequest dr
                      :: (Message_DialDataResponse <$> (mkDialDataResponse <$> data_sent evs)))
  ∧ (data_sent evs ≠ [] ->
       ∃ req, head (received evs) = Some (Message_DialDataRequest req)
         ∧ Z.of_N (ddr_AddrIdx req) < len high
         ∧ (NumBytes req <= maxHandshakeSizeBytes)%N).
Proof.
  destruct (CheckReachability_io ac heap e high low)
    as [(_ & _ & _ & Hr & Hs & Hd & _)|(Hr & Hs & Hd)]; simpl in *.
  2:{ rewrite Hr, Hs, Hd. simpl. split_and!; [lia|done|by left|done]. }
  rewrite Hr, Hs, Hd.
  match goal with |- context [exchange ?a e high low ?n] =>
    pose proof (exchange_messages a e high low n) as (Hlen & Hsent & Hlast & Hdata & _);
    pose proof (exchange_received a e high low n) as Hrecv;
    destruct (exchange a e high low n) as [x evs0] end.
  simpl in *. specialize (Hrecv _ _ eq_refl).
  split_and!; [done| | |done].
  - intros resp Hin. destruct x as [out|resp0]; [by apply Hrecv in Hin|].
    apply Hrecv in Hin as ->. by apply Hlast.
  - destruct Hsent as [?|(dr & Hdr & Hsent)]; [by left|]. right. exists dr.
    split_and!; [done| |done].
    unfold newDialRequest in Hdr.
    destruct (mapM (fmap ma.Bytes) (high ++ low)); by simplify_eq.
Qed.

(** X15.  Messages of the wrong type.  When the first message read is neither
    a Dial Response nor a Dial Data Request, the call returns the
    invalid-message-type error, which names the type it found, after reading
    nothing more and writing no dial data.  When the message read after the
    dial data is not a Dial Response, the call returns the
    invalid-response-type error. *)
Theorem CheckReachability_rejects_unexpected_messages ac heap e high low :
  let out := (CheckReachability ac heap e high low).1.1.1 in
  let evs := (CheckReachability ac heap e high low).2 in
  (∀ m, head (received evs) = Some m ->
     GetDialResponse m = None -> GetDialDataRequest m = None ->
     out = Returned Result_zero
             (Some (fmt_Errorf "invalid msg type: %T" [verb_T (Msg_type m)]))
     ∧ received evs = [m] ∧ data_sent evs = [])
  ∧ (∀ m1 m2, received evs = [m1; m2] -> GetDialResponse m2 = None ->
       out = Returned Result_zero
               (Some (fmt_Errorf "invalid response type: %T" [verb_T (Msg_type m2)]))).
Proof.
  destruct (CheckReachability_io ac heap e high low)
    as [(_ & _ & _ & Hr & Hs & Hd & Hout)|(Hr & Hs & Hd)]; simpl in *.
  2:{ rewrite Hr. by split. }
  rewrite Hr, Hd, Hout.
  match goal with |- context [exchange ?a e high low ?n] =>
    pose proof (exchange_messages a e high low n) as (_ & _ & _ & _ & Hfirst & Hsecond & _);
    destruct (exchange a e high low n) as [x evs0] end.
  simpl in *. split.
  - intros m Hm Hnr Hnd. destruct (Hfirst m Hm Hnr Hnd) as (-> & ? & ?). done.
  - intros m1 m2 Hm Hnr. by rewrite (Hsecond m1 m2 Hm Hnr).
Qed.

(** X16.  Dial data on request.  When the first message read is a Dial Data
    Request for a high-priority index and for no more than
    [maxHandshakeSizeBytes] bytes (and fewer than 2^63), the buffer is not
    empty and no write fails, the call writes exactly the requested number of
    bytes of dial data: the whole buffer as often as it fits, then the rest. *)
Theorem CheckReachability_sends_requested_dial_data ac heap e high low req :
  head (received (CheckReachability ac heap e high low).2)
    = Some (Message_DialDataRequest req) ->
  Z.of_N (ddr_AddrIdx req) < len high ->
  (NumBytes req <= maxHandshakeSizeBytes)%N ->
  (NumBytes req < 2 ^ 63)%N ->
  dialData ac ≠ [] ->
  firstWriteError e = None ->
  let evs := (CheckReachability ac heap e high low).2 in
  data_sent evs = dial_data_chunks (dialData ac) (Z.of_N (NumBytes req))
  ∧ total_bytes (data_sent evs) = Z.of_N (NumBytes req)
  ∧ (CheckReachability ac heap e high low).1.1.1 ≠ Diverges.
Proof.
  intros Hhd Hidx Hmax Hsmall Hne Hw.
  destruct (CheckReachability_io ac heap e high low)
    as [(_ & _ & _ & Hr & Hs & Hd & Hout)|(Hr & Hs & Hd)]; simpl in *.
  2:{ by rewrite Hr in Hhd. }
  rewrite Hd, Hout. rewrite Hr in Hhd.
  set (ac1 := set_dialBackQueues ac _) in *.
  pose proof (exchange_messages ac1 e high low (rand_Uint64 e))
    as (_ & _ & _ & _ & _ & _ & Hdata).
  pose proof (exchange_terminates ac1 e high low (rand_Uint64 e) Hne) as Hterm.
  simpl in Hdata. rewrite (Hdata req Hhd Hidx Hmax).
  assert (int_of_uint64 (NumBytes req) = Z.of_N (NumBytes req)) as Hint.
  { unfold int_of_uint64. rewrite Z.mod_small by lia.
    destruct (Z.ltb_spec (Z.of_N (NumBytes req)) (2 ^ 63)); lia. }
  unfold sendDialData. rewrite sendDialData_loop_chunks; [|done| |lia].
  2:{ intros i _. unfold WriteMsg. by rewrite Hw. }
  simpl. rewrite Hint.
  assert (data_sent (write_chunk <$> dial_data_chunks (dialData ac) (Z.of_N (NumBytes req)))
          = dial_data_chunks (dialData ac) (Z.of_N (NumBytes req))) as ->.
  { generalize (dial_data_chunks (dialData ac) (Z.of_N (NumBytes req))).
    intros cs. induction cs as [|c cs IH]; [done|]. simpl. by f_equal. }
  split_and!; [done| |].
  - rewrite dial_data_chunks_total by done. lia.
  - destruct (exchange ac1 e high low (rand_Uint64 e)) as [[out|resp] evs0]; simpl in *.
    + congruence.
    + apply resolve_not_Diverges.
Qed.

(** ** Delivery of dial-backs *)

(** X17.  What a dial-back does to the channels.  [handleDialBack] allocates
    and frees no channel and overfills none.  It can change only the channel
    registered under the nonce it read: that channel gets the local address
    of the stream behind what it holds when it has room, and stays as it is
    when it is full.  A run that fails before the lookup changes nothing. *)
Theorem handleDialBack_delivery ac heap s :
  let heap' := (handleDialBack ac heap s).1.2 in
  dom heap' = dom heap
  ∧ (chans_bounded heap -> chans_bounded heap')
  ∧ (∀ l, (∀ msg, db_ReadMsg s = Ok msg ->
             dialBackQueues ac !! db_Nonce msg ≠ Some (Some l)) ->
          heap' !! l = heap !! l)
  ∧ (∀ msg l c, db_SetService s = None -> db_ReserveMemory s = None ->
       db_ReadMsg s = Ok msg ->
       dialBackQueues ac !! db_Nonce msg = Some (Some l) -> heap !! l = Some c ->
       heap' !! l = Some (if (length (buf c) <? cap c)%nat
                          then mkChan (cap c) (buf c ++ [db_LocalMultiaddr s])
                          else c))
  ∧ (is_Some (db_SetService s) ∨ is_Some (db_ReserveMemory s)
     ∨ (∃ err, db_ReadMsg s = Err err) -> heap' = heap).
Proof.
  unfold handleDialBack.
  destruct (db_SetService s) as [e1|].
  { simpl. split_and!; try done. }
  destruct (db_ReserveMemory s) as [e2|].
  { simpl. split_and!; try done. }
  destruct (db_ReadMsg s) as [msg|e3].
  2:{ simpl. split_and!; try done. }
  simpl. unfold select_send.
  destruct (dialBackQueues ac !! db_Nonce msg) as [[l|]|] eqn:Hl; simpl.
  2,3: split_and!; [done|done|done
    |intros msg' l' c' _ _ [= <-] Hl'; congruence
    |intros [Hf|[Hf|[? Hf]]]; [by apply is_Some_None in Hf..|done]].
  destruct (heap !! l) as [c|] eqn:Hc.
  2:{ split_and!; [done|done|done
        |intros msg' l' c' _ _ [= <-] Hl' Hc'; congruence
        |intros [Hf|[Hf|[? Hf]]]; [by apply is_Some_None in Hf..|done]]. }
  unfold try_send. destruct (Nat.ltb_spec (length (buf c)) (cap c)) as [Hroom|Hfull].
  - split_and!.
    + apply dom_insert_lookup_L. by rewrite Hc.
    + intros Hb l' c'. destruct (decide (l' = l)) as [->|Hne].
      * rewrite lookup_insert_eq. intros [= <-]. simpl. rewrite length_app. simpl. lia.
      * rewrite lookup_insert_ne by done. apply Hb.
    + intros l' Hother. rewrite lookup_insert_ne; [done|].
      intros <-. by apply (Hother msg).
    + intros msg' l' c' _ _ [= <-] Hl' Hc'. simplify_eq.
      rewrite lookup_insert_eq. by destruct (Nat.ltb_spec (length (buf c)) (cap c)); [|lia].
    + intros [Hf|[Hf|[? Hf]]]; [by apply is_Some_None in Hf..|done].
  - split_and!; [done|done|done| |].
    + intros msg' l' c' _ _ [= <-] Hl' Hc'. simplify_eq.
      rewrite Hc. by destruct (Nat.ltb_spec (length (buf c)) (cap c)); [lia|].
    + intros [Hf|[Hf|[? Hf]]]; [by apply is_Some_None in Hf..|done].
Qed.

(** X18.  End to end.  Let the server answer [OK] with dial status [OK] for an
    address of the request.  The call then compares that address with the
    local address of the first dial-back stream that carried its nonce,
    provided the runtime lets the receive proceed; dial-backs with other
    nonces, later dial-backs and dial-backs whose handler failed do not count.
    When the two are consistent the Result is public with status [OK];
    otherwise, and when there is no such dial-back or the context or the
    timer end the wait, it is unknown with status [E_DIAL_BACK_ERROR]. *)
Theorem CheckReachability_end_to_end ac heap e high low resp addr :
  refs_allocated ac heap ->
  DialStatus_OK ≠ DialStatus_UNUSED ->
  In (Message_DialResponse resp)
     (received (CheckReachability ac heap e high low).2) ->
  pb.Status resp = DialResponse_OK ->
  DialStatus resp = DialStatus_OK ->
  (high ++ low) !! N.to_nat (AddrIdx resp) = Some addr ->
  let obtained :=
    match select_pick e,
          filter (fun s => delivers (rand_Uint64 e) s = true) (dialBacks e) with
    | CaseChan, s :: _ => db_LocalMultiaddr s
    | _, _ => None
    end in
  (CheckReachability ac heap e high low).1.1.1
  = Returned
      {| Idx := Z.of_N (AddrIdx resp);
         Addr := addr;
         Reachability := if areAddrsConsistent obtained addr
                         then network.ReachabilityPublic
                         else network.ReachabilityUnknown;
         Status := if areAddrsConsistent obtained addr
                   then DialStatus_OK
                   else DialStatus_E_DIAL_BACK_ERROR |}
      None.
Proof.
  intros Hwf Hne (_ & _ & _ & ->)%CheckReachability_resolves Hok Hds Hlk obtained.
  assert (Z.of_N (AddrIdx resp) < len high + len low) as Hrange.
  { apply lookup_lt_Some in Hlk. rewrite length_app in Hlk. unfold len. lia. }
  destruct (lookup_high_low high low (AddrIdx resp) Hrange) as (addr' & Hlk' & Hsel).
  assert (addr' = addr) as -> by congruence.
  pose proof (dialBackAddr_obtained_is_first_delivery ac heap e Hwf) as Hob.
  fold obtained in Hob. unfold dialBackAddr_obtained in Hob.
  unfold resolve, newResults. rewrite Hok, Hds, !Z.eqb_refl. simpl.
  destruct (Z.eqb_spec DialStatus_OK DialStatus_UNUSED); [done|].
  destruct (Z.ltb_spec (Z.of_N (AddrIdx resp)) (len high + len low)); [|lia].
  destruct (await_dialBack _ _ _) as [dba heap']. simpl in *. subst dba.
  destruct (Z.geb_spec (Z.of_N (AddrIdx resp)) (len high + len low)); [lia|].
  rewrite Hsel, ?Hds, ?Z.eqb_refl. subst obtained.
  by destruct (areAddrsConsistent _ addr).
Qed.

End ClientProperties.

(** ** The client on concrete inputs *)

Section ClientRuns.
Import pb autonatv2 ClientInputs.

(** Same protocols, different port: consistent.  IPv4 against IPv6: not. *)
Example areAddrsConsistent_other_port :
  areAddrsConsistent addr_a_other_port addr_a = true.
Proof. reflexivity. Qed.

Example areAddrsConsistent_other_family :
  areAddrsConsistent addr_a6 addr_a = false.
Proof. reflexivity. Qed.

(** C7 on the three kinds of pairs. *)
Lemma areAddrsConsistent_iff_same_codes_witness :
  areAddrsConsistent addr_a_other_port addr_a = true
  ∧ areAddrsConsistent addr_a6 addr_a = false
  ∧ areAddrsConsistent None addr_a = false
  ∧ areAddrsConsistent addr_a None = false.
Proof.
  pose proof (areAddrsConsistent_iff_same_codes addr_a addr_a)
    as (_ & Hsame & Hdiff & Hnil_l & Hnil_r).
  split_and!; [|  |exact Hnil_l|exact Hnil_r].
  - apply Hsame. reflexivity.
  - apply Hdiff. vm_compute. discriminate.
Defined.

(** C10 on a dial-back whose nonce nobody waits for. *)
Lemma handleDialBack_only_reads_the_map_witness :
  handleDialBack NewClient ∅ (dialBack_ok 7 addr_a)
  = (NewClient, ∅,
     [EvSetDeadline; EvReadDialBack (mkDialBack 7); EvLock; EvMapLookup 7; EvUnlock;
      EvClose; EvReleaseMemory]).
Proof.
  pose proof (handleDialBack_only_reads_the_map NewClient ∅ (dialBack_ok 7 addr_a)) as Hh.
  destruct (handleDialBack NewClient ∅ (dialBack_ok 7 addr_a)) as [[ac' heap'] evs].
  destruct Hh as (-> & _ & _ & Habsent).
  destruct (Habsent (mkDialBack 7) eq_refl eq_refl eq_refl eq_refl) as (_ & -> & ->).
  reflexivity.
Defined.

(** C1 (amended): the server answers OK / dial status OK for address 0, and the dial-back
    arrives from the same address with another port. *)
Lemma CheckReachability_classifies_in_range_response_witness :
  ∃ r, (CheckReachability NewClient ∅ (env_with (response 200 0 200) Msg_nil)
          [addr_a] []).1.1.1 = Returned r None
       ∧ Reachability r = network.ReachabilityPublic
       ∧ Status r = DialStatus_OK.
Proof.
  destruct (CheckReachability_classifies_in_range_response
              NewClient ∅ (env_with (response 200 0 200) Msg_nil) [addr_a] []
              (mkDialResponse 200 0 200))
    as (r & addr & Hret & Hlk & _ & _ & Hpub & _ & _ & _ & Hst).
  - vm_compute. discriminate.
  - vm_compute. left. reflexivity.
  - reflexivity.
  - vm_compute. discriminate.
  - vm_compute. reflexivity.
  - exists r. injection Hlk as <-. split; [exact Hret|].
    assert (Reachability r = network.ReachabilityPublic) as Hp.
    { apply Hpub. split; [reflexivity|].
      eexists _, _. split_and!; [vm_compute; reflexivity|reflexivity|reflexivity]. }
    split; [exact Hp|]. apply Hst. by right.
Defined.

(** C1, as stated, fails: top-level status OK, dial status OK, but the index
    is outside the two address lists, and the call returns an error. *)
Lemma CheckReachability_out_of_range_response_is_error :
  let run := CheckReachability NewClient ∅ (env_with (response 200 5 200) Msg_nil)
               [addr_a] [] in
  In (Message_DialResponse (mkDialResponse 200 5 200)) (received run.2)
  ∧ pb.Status (mkDialResponse 200 5 200) = DialResponse_OK
  ∧ DialStatus (mkDialResponse 200 5 200) ≠ DialStatus_UNUSED
  ∧ run.1.1.1 = Returned Result_zero
                  (Some (fmt_Errorf "addrIdx out of range: %d 0-%d" [verb_d 5; verb_d 0]))
  ∧ ¬ ∃ r, run.1.1.1 = Returned r None.
Proof.
  split_and!; try (vm_compute; by auto).
  intros [r Hr]. vm_compute in Hr. discriminate Hr.
Qed.

(** C3 on a Dial Data Request for index 1 when one address has high priority. *)
Lemma CheckReachability_rejects_invalid_DialDataRequest_witness :
  let run := CheckReachability NewClient ∅
               (env_with (data_request 1 4096) (response 200 0 200)) [addr_a] [addr_a6] in
  (∃ err, run.1.1.1 = Returned Result_zero (Some err))
  ∧ ∀ m, In m (sent run.2) -> is_DialDataResponse m = false.
Proof.
  pose proof (CheckReachability_rejects_invalid_DialDataRequest NewClient ∅
                (env_with (data_request 1 4096) (response 200 0 200)) [addr_a] [addr_a6]
                (mkDialDataRequest 1 4096)) as Hthm.
  destruct Hthm as [Hin Hhd].
  - left. vm_compute. discriminate.
  - split.
    + apply Hin. vm_compute. left. reflexivity.
    + apply Hhd. vm_compute. reflexivity.
Defined.

(** C4 on a successful call: nonce 42 was registered and is gone. *)
Lemma CheckReachability_unregisters_nonce_witness :
  let run := CheckReachability NewClient ∅ (env_with (response 200 0 200) Msg_nil)
               [addr_a] [] in
  In (EvMapInsert 42) run.2 ∧ dialBackQueues run.1.1.2 !! 42%N = None.
Proof.
  pose proof (CheckReachability_unregisters_nonce NewClient ∅
                (env_with (response 200 0 200) Msg_nil) [addr_a] []) as Hthm.
  destruct (CheckReachability NewClient ∅ (env_with (response 200 0 200) Msg_nil)
              [addr_a] []) as [[[out ac'] heap'] evs] eqn:Hrun.
  destruct Hthm as [Hterm Hun].
  assert (In (EvMapInsert 42) evs) as Hin.
  { vm_compute in Hrun. injection Hrun as _ _ _ <-. right. right. left. reflexivity. }
  split; [exact Hin|]. simpl.
  apply (Hun 42%N Hin). apply Hterm. vm_compute. discriminate.
Defined.

(** C6 on a response with the refusal status. *)
Lemma CheckReachability_response_status_errors_witness :
  ∃ err, (CheckReachability NewClient ∅ (env_with (response 101 0 0) Msg_nil)
            [addr_a] []).1.1.1 = Returned Result_zero (Some err)
         ∧ errors_Is err ErrDialRefused.
Proof.
  destruct (CheckReachability_response_status_errors
              NewClient ∅ (env_with (response 101 0 0) Msg_nil) [addr_a] []
              (mkDialResponse 101 0 0)) as (Hrefused & _ & _).
  - vm_compute. discriminate.
  - vm_compute. left. reflexivity.
  - destruct (Hrefused eq_refl) as (err & Hret & _ & His). exists err. split; assumption.
Defined.


(** X8 on a request for 10000 bytes: two full buffers and 1808 bytes. *)
Lemma sendDialData_sends_requested_bytes_witness :
  length <$> data_sent (sendDialData NewClient (env_with Msg_nil Msg_nil)
                          (mkDialDataRequest 0 10000) 1).2
  = [4096; 4096; 1808]%nat.
Proof.
  destruct (sendDialData_sends_requested_bytes NewClient (env_with Msg_nil Msg_nil)
              (mkDialDataRequest 0 10000) 1) as (Heq & _ & _).
  - vm_compute. discriminate.
  - intros i _. reflexivity.
  - rewrite Heq. vm_compute. reflexivity.
Defined.

(** X9 on a stream whose third write fails: the request, one chunk, and the
    chunk that failed. *)
Lemma sendDialData_stops_at_first_failure_witness :
  length (sendDialData NewClient (env_failing_write 2 Msg_nil Msg_nil)
            (mkDialDataRequest 0 10000) 1).2 = 2%nat.
Proof.
  destruct (sendDialData_stops_at_first_failure NewClient
              (env_failing_write 2 Msg_nil Msg_nil) (mkDialDataRequest 0 10000) 1
              (errors_New "stream reset")
              (sendDialData NewClient (env_failing_write 2 Msg_nil Msg_nil)
                 (mkDialDataRequest 0 10000) 1).2)
    as (k & Hk & _ & Hlen & _).
  - vm_compute. reflexivity.
  - injection Hk as <-. exact Hlen.
Defined.

(** X10 on the successful call of the C1 witness. *)
Lemma CheckReachability_success_needs_valid_response_witness :
  ∃ resp,
    In (Message_DialResponse resp)
       (received (CheckReachability NewClient ∅ (env_with (response 200 0 200) Msg_nil)
                    [addr_a] []).2)
    ∧ pb.Status resp = DialResponse_OK.
Proof.
  destruct (CheckReachability_success_needs_valid_response NewClient ∅
              (env_with (response 200 0 200) Msg_nil) [addr_a] []
              (mkResult 0 addr_a network.ReachabilityPublic 200))
    as (_ & _ & _ & resp & Hin & Hok & _).
  - vm_compute. reflexivity.
  - exists resp. split; assumption.
Defined.

(** X11 on a response for index 5 of a one-address request. *)
Lemma CheckReachability_rejects_out_of_range_index_witness :
  (CheckReachability NewClient ∅ (env_with (response 200 5 200) Msg_nil)
     [addr_a] []).1.1.1
  = Returned Result_zero
      (Some (fmt_Errorf "addrIdx out of range: %d 0-%d" [verb_d 5; verb_d 0])).
Proof.
  destruct (CheckReachability_rejects_out_of_range_index NewClient ∅
              (env_with (response 200 5 200) Msg_nil) [addr_a] []
              (mkDialResponse 200 5 200)) as [Hout _].
  - vm_compute. left. reflexivity.
  - reflexivity.
  - vm_compute. discriminate.
  - vm_compute. discriminate.
  - exact Hout.
Defined.

(** X16 on a request for 10000 bytes of dial data for address 0. *)
Lemma CheckReachability_sends_requested_dial_data_witness :
  total_bytes (data_sent (CheckReachability NewClient ∅
                            (env_with (data_request 0 10000) (response 200 0 200))
                            [addr_a] []).2) = 10000.
Proof.
  destruct (CheckReachability_sends_requested_dial_data NewClient ∅
              (env_with (data_request 0 10000) (response 200 0 200)) [addr_a] []
              (mkDialDataRequest 0 10000)) as (_ & Htotal & _).
  - vm_compute. reflexivity.
  - vm_compute. reflexivity.
  - vm_compute. discriminate.
  - vm_compute. reflexivity.
  - vm_compute. discriminate.
  - reflexivity.
  - exact Htotal.
Defined.

(** X18 on the call of the C1 witness: the dial-back came from the same
    address with another port. *)
Lemma CheckReachability_end_to_end_witness :
  (CheckReachability NewClient ∅ (env_with (response 200 0 200) Msg_nil)
     [addr_a] []).1.1.1
  = Returned (mkResult 0 addr_a network.ReachabilityPublic 200) None.
Proof.
  rewrite (CheckReachability_end_to_end NewClient ∅
             (env_with (response 200 0 200) Msg_nil) [addr_a] []
             (mkDialResponse 200 0 200) addr_a).
  - vm_compute. reflexivity.
  - intros n l Hl. vm_compute in Hl. discriminate Hl.
  - vm_compute. discriminate.
  - vm_compute. left. reflexivity.
  - reflexivity.
  - reflexivity.
  - reflexivity.
Defined.

End ClientRuns.
